(** * CasOC::Transcription (Moco/MocoCasADiSolver/CasOCTranscription.h)

    A shallow embedding of the base class of Moco's direct-collocation
    transcription schemes: the flatten/expand codec between the named
    variable blocks and the flat decision vector, the time grid scaling,
    the bound setter and the solve orchestration around the external
    nonlinear-programming solver. *)

From stdpp Require Import base option list sorting gmap strings.

Set Default Proof Using "Type".

(** ** casadi matrices

    [casadi::DM] and [casadi::MX] are matrices of doubles and of symbolic
    expressions.  Both are embedded as a shape with the entries in
    column-major order, the order in which casadi's [vec], [veccat],
    linear indexing and [reshape] enumerate a matrix.  A structural zero
    of a sparse matrix is an entry like any other.  Sizes are [casadi_int]
    (64-bit) in the source; they count entries held in memory, so they are
    natural numbers here. *)

Record Matrix (A : Type) : Type := mkMatrix {
  rows : nat;
  columns : nat;
  elems : list A
}.
Arguments mkMatrix {A} _ _ _.
Arguments rows {A} _.
Arguments columns {A} _.
Arguments elems {A} _.

Section MatrixOps.
Context {A : Type}.

(** [numel()]: the number of entries, structural zeros included. *)
Definition numel (m : Matrix A) : nat := rows m * columns m.

(** The representation invariant of a matrix object: one stored entry
    per position. *)
Definition wf_matrix (m : Matrix A) : Prop := length (elems m) = numel m.

Global Instance wf_matrix_dec m : Decision (wf_matrix m).
Proof. unfold wf_matrix. apply _. Defined.

(** [T::veccat(v)]: every matrix is vectorised column by column and the
    resulting columns are stacked into one column vector. *)
Definition veccat (v : list (Matrix A)) : Matrix A :=
  mkMatrix (sum_list (numel <$> v)) 1 (concat (elems <$> v)).

(** [x(Slice(start, stop))]: linear indexing with a half-open range.
    casadi raises an error when [stop] exceeds the number of entries;
    the selected entries come back as a vector. *)
Definition slice (x : Matrix A) (start stop : nat) : option (Matrix A) :=
  if decide (stop ≤ numel x)
  then Some (mkMatrix (stop - start) 1
               (take (stop - start) (drop start (elems x))))
  else None.

(** [T::reshape(x, r, c)]: same entries in the same column-major order
    under a new shape; casadi raises an error when the number of
    entries would change. *)
Definition reshape (x : Matrix A) (r c : nat) : option (Matrix A) :=
  if decide (numel x = r * c) then Some (mkMatrix r c (elems x)) else None.
End MatrixOps.

(** ** Variable maps

    [Var] is the enumeration of variable-block identifiers and
    [Variables<T>] the unordered map from [Var] to [T]; both are declared
    in a header that is included here but defined elsewhere.  The
    enumeration is a parameter: a type whose values carry the integer that
    C++ compares ([operator<] of an unscoped enumeration, used by
    [std::sort], and the equality of the map's keys).

    An unordered map promises no iteration order, so a map is embedded as
    the list of its entries in iteration order, whatever that order is;
    its keys are pairwise distinct. *)

Definition Variables (Var T : Type) : Type := list (Var * T).

Section Codec.
Context {Var : Type} (var_int : Var → Z).

Definition var_eqb (a b : Var) : bool := bool_decide (var_int a = var_int b).

(** The comparison [std::sort] sorts by.  Different identifiers have
    different integers, so the order is total and a sorted list of keys is
    unique: whatever algorithm [std::sort] runs, it returns the list that
    [merge_sort] returns. *)
Definition var_le (a b : Var) : Prop := (var_int a ≤ var_int b)%Z.

Global Instance var_le_dec a b : Decision (var_le a b).
Proof. unfold var_le. apply _. Defined.

Section Generic.
Context {T : Type}.

(** [vars.at(key)]: throws [std::out_of_range] for a missing key. *)
Fixpoint Variables_at (vars : Variables Var T) (key : Var) : option T :=
  match vars with
  | [] => None
  | (k, v) :: rest => if var_eqb k key then Some v else Variables_at rest key
  end.

(** [vars[key] = value]: overwrites the entry of [key], or creates it.
    Where a new entry shows up in the iteration order is left open by
    the container; it is put first here. *)
Definition Variables_set (vars : Variables Var T) (key : Var) (value : T)
  : Variables Var T :=
  match Variables_at vars key with
  | Some _ =>
      (λ kv : Var * T, if var_eqb kv.1 key then (kv.1, value) else kv) <$> vars
  | None => (key, value) :: vars
  end.

Definition keys (vars : Variables Var T) : list Var := vars.*1.

(** [getSortedVarKeys]: push every key in iteration order, then sort. *)
Definition getSortedVarKeys (vars : Variables Var T) : list Var :=
  merge_sort var_le (keys vars).
End Generic.

(** [flatten]: the blocks in sorted-key order, concatenated by [veccat].
    The template is instantiated at [DM] and at [MX]; [A] is the entry
    type. *)
Definition flatten {A} (vars : Variables Var (Matrix A)) : option (Matrix A) :=
  stdvec ← mapM (Variables_at vars) (getSortedVarKeys vars);
  Some (veccat stdvec).

(** The loop of [expand]: [out] and [offset] are the two locals it
    updates, [m_vars] the member it reads the shapes from. *)
Fixpoint expand_loop {S A} (m_vars : Variables Var (Matrix S)) (x : Matrix A)
    (sorted : list Var) (offset : nat) (out : Variables Var (Matrix A))
    : option (Variables Var (Matrix A)) :=
  match sorted with
  | [] => Some out
  | key :: sorted' =>
      value ← Variables_at m_vars key;
      part ← slice x offset (offset + numel value);
      block ← reshape part (rows value) (columns value);
      expand_loop m_vars x sorted' (offset + numel value)
        (Variables_set out key block)
  end.

Definition expand {S A} (m_vars : Variables Var (Matrix S)) (x : Matrix A)
    : option (Variables Var (Matrix A)) :=
  expand_loop m_vars x (getSortedVarKeys m_vars) 0 [].

(** *** Vocabulary of the statements about the codec *)

(** The number of entries of all the blocks of a map. *)
Definition total_numel {A} (vars : Variables Var (Matrix A)) : nat :=
  sum_list (numel <$> vars.*2).

(** The number of entries of the block of [key]. *)
Definition block_numel {A} (vars : Variables Var (Matrix A)) (key : Var) : nat :=
  from_option numel 0 (Variables_at vars key).

(** The position at which the block of [key] starts in the flat vector:
    the sizes of the blocks whose keys come before [key] in the sorted
    order, added up. *)

Fixpoint offset_before {A} (vars : Variables Var (Matrix A))
    (sorted : list Var) (key : Var) : nat :=
  match sorted with
  | [] => 0
  | k :: rest =>
      if var_eqb k key then 0
      else block_numel vars k + offset_before vars rest key
  end.

Definition sorted_offset {A} (vars : Variables Var (Matrix A)) (key : Var) : nat :=
  offset_before vars (getSortedVarKeys vars) key.

(** The block that [at] finds, with the empty matrix standing in where
    [at] would throw. *)
Definition block_at {A} (vars : Variables Var (Matrix A)) (key : Var) : Matrix A :=
  default (mkMatrix 0 0 []) (Variables_at vars key).

(** The block that [expand] cuts out of [x] for [key]. *)
Definition expanded_block {S A} (m_vars : Variables Var (Matrix S))
    (x : Matrix A) (offset : nat) (key : Var) : Matrix A :=
  mkMatrix (rows (block_at m_vars key)) (columns (block_at m_vars key))
    (take (block_numel m_vars key) (drop offset (elems x))).

(** Two maps have the same keys and, key by key, blocks of the same
    shape. *)
Definition shape {A} (m : Matrix A) : nat * nat := (rows m, columns m).

Definition same_shape {S A} (a : Variables Var (Matrix S))
    (b : Variables Var (Matrix A)) : Prop :=
  ∀ key, shape <$> Variables_at a key = shape <$> Variables_at b key.

(** Every block of a map is a well-formed matrix. *)
Definition wf_blocks {A} (vars : Variables Var (Matrix A)) : Prop :=
  Forall wf_matrix vars.*2.
End Codec.


(** ** Arithmetic on matrices

    [createTimes] is a template over the matrix type; it needs the three
    operators below on the entries.  Doubles (and symbolic expressions)
    are kept abstract: nothing here depends on how they round. *)

Class Arith (A : Type) : Type := {
  plus_op : A → A → A;
  minus_op : A → A → A;
  times_op : A → A → A
}.

Section MatrixArith.
Context {A : Type}.

(** casadi's binary operators work entry by entry.  A matrix with a
    single entry is a scalar and is combined with every entry of the
    other operand; otherwise the two shapes have to agree, and casadi
    raises an error when they do not. *)
Definition binary (op : A → A → A) (x y : Matrix A) : option (Matrix A) :=
  if decide (numel x = 1) then
    a ← head (elems x);
    Some (mkMatrix (rows y) (columns y) (op a <$> elems y))
  else if decide (numel y = 1) then
    b ← head (elems y);
    Some (mkMatrix (rows x) (columns x) ((λ a, op a b) <$> elems x))
  else if decide (rows x = rows y ∧ columns x = columns y) then
    Some (mkMatrix (rows x) (columns x) (zip_with op (elems x) (elems y)))
  else None.

(** [m(rr, cc) = value] with a scalar right-hand side: every selected
    position receives [value].  [rr] and [cc] are the row and column
    positions that the two index arguments (an integer, a [Slice], an
    index vector) denote; casadi raises an error when one of them lies
    outside the matrix.  Entry (i, j) is stored at [i + j * rows]. *)
Definition region (m : Matrix A) (rr cc : list nat) : list nat :=
  j ← cc; i ← rr; [i + j * rows m].

Definition set_region (m : Matrix A) (rr cc : list nat) (value : A)
    : option (Matrix A) :=
  if decide (Forall (λ i, i < rows m) rr ∧ Forall (λ j, j < columns m) cc)
  then Some (mkMatrix (rows m) (columns m)
               (foldr (λ p l, <[p := value]> l) (elems m) (region m rr cc)))
  else None.

(** [m(i, j)] read as a value. *)
Definition entry (m : Matrix A) (i j : nat) : option A :=
  if decide (i < rows m ∧ j < columns m) then elems m !! (i + j * rows m)
  else None.

(** A default-constructed matrix is empty, 0-by-0. *)
Definition Matrix_default : Matrix A := mkMatrix 0 0 [].

(** The 1-by-1 matrix that holds one number. *)
Definition scalar (a : A) : Matrix A := mkMatrix 1 1 [a].
End MatrixArith.

(** ** Solver options

    [casadi::Dict] maps option names to [GenericType] values, which can
    themselves hold a dictionary. *)

Local Unset Elimination Schemes.
Inductive GenericType (double : Type) : Type :=
  | GT_bool (b : bool)
  | GT_int (i : Z)
  | GT_double (x : double)
  | GT_string (s : string)
  | GT_dict (d : gmap string (GenericType double)).
Local Set Elimination Schemes.
Arguments GT_bool {double} _.
Arguments GT_int {double} _.
Arguments GT_double {double} _.
Arguments GT_string {double} _.
Arguments GT_dict {double} _.

Abbreviation Dict double := (gmap string (GenericType double)).

(** [std::map::emplace]: the entry is added only when the key is free. *)
Definition emplace {V} (k : string) (v : V) (m : gmap string V) : gmap string V :=
  match m !! k with
  | Some _ => m
  | None => <[k := v]> m
  end.

(** ** The transcription object *)

(** [CasOC::Bounds]: the two limits.  Whether a bound counts as set is
    decided by [Bounds::isSet], which is defined with the structure in a
    header outside this file; it is a parameter below. *)
Record Bounds (double : Type) : Type := mkBounds {
  lower : double;
  upper : double
}.
Arguments mkBounds {double} _ _.
Arguments lower {double} _.
Arguments upper {double} _.

(** The part of [CasOC::Solver] that [solve] reads, through its getters. *)
Record Solver (double : Type) : Type := mkSolver {
  getPluginOptions : Dict double;
  getOptimSolver : string;
  getSolverOptions : Dict double
}.
Arguments mkSolver {double} _ _ _.
Arguments getPluginOptions {double} _.
Arguments getOptimSolver {double} _.
Arguments getSolverOptions {double} _.

(** [CasOC::Iterate] and [CasOC::Solution]: the variable blocks and the
    time vector; [info] stands for the remaining members (the names of the
    channels), which this file never touches.  A solution adds the
    solver's statistics. *)
Record Iterate (Var double info : Type) : Type := mkIterate {
  variables : Variables Var (Matrix double);
  times : Matrix double;
  iterate_info : info
}.
Arguments mkIterate {Var double info} _ _ _.
Arguments variables {Var double info} _.
Arguments times {Var double info} _.
Arguments iterate_info {Var double info} _.

Record Solution (Var double info : Type) : Type := mkSolution {
  iterate : Iterate Var double info;
  stats : Dict double
}.
Arguments mkSolution {Var double info} _ _.
Arguments iterate {Var double info} _.
Arguments stats {Var double info} _.

(** The data members of [Transcription].  [sym] is the type of the entries
    of a symbolic matrix ([casadi::MX]), [Problem] that of the problem the
    object refers to. *)
Record Transcription (Var double sym Problem : Type) : Type := mkTranscription {
  m_solver : Solver double;
  m_problem : Problem;
  m_vars : Variables Var (Matrix sym);
  m_lowerBounds : Variables Var (Matrix double);
  m_upperBounds : Variables Var (Matrix double);
  m_numGridPoints : Z;
  m_grid : Matrix double;
  m_times : Matrix sym;
  m_duration : Matrix sym;
  xdot : Matrix sym;
  qerr : Matrix sym;
  m_objective : Matrix sym;
  m_constraints : list (Matrix sym);
  m_constraintsLowerBounds : list (Matrix double);
  m_constraintsUpperBounds : list (Matrix double)
}.
Arguments mkTranscription {Var double sym Problem}.
Arguments m_solver {Var double sym Problem} _.
Arguments m_problem {Var double sym Problem} _.
Arguments m_vars {Var double sym Problem} _.
Arguments m_lowerBounds {Var double sym Problem} _.
Arguments m_upperBounds {Var double sym Problem} _.
Arguments m_numGridPoints {Var double sym Problem} _.
Arguments m_grid {Var double sym Problem} _.
Arguments m_times {Var double sym Problem} _.
Arguments m_duration {Var double sym Problem} _.
Arguments xdot {Var double sym Problem} _.
Arguments qerr {Var double sym Problem} _.
Arguments m_objective {Var double sym Problem} _.
Arguments m_constraints {Var double sym Problem} _.
Arguments m_constraintsLowerBounds {Var double sym Problem} _.
Arguments m_constraintsUpperBounds {Var double sym Problem} _.

(** ** Member functions as state transformers

    A member function runs on the object it is called on, may call into
    the outside (the resampling of the guess, the casadi solver) and may
    end in an exception.  [M] threads the object and the record of the
    outside calls made so far; an exception leaves both as they were when
    it was thrown. *)

Section Monad.
Context {Self Event : Type}.

Record World : Type := mkWorld {
  self : Self;
  trace : list Event
}.

Definition M (R : Type) : Type := World → option R * World.

Definition ret {R} (r : R) : M R := λ w, (Some r, w).

Definition bind {R R'} (m : M R) (k : R → M R') : M R' :=
  λ w, match m w with
       | (Some r, w') => k r w'
       | (None, w') => (None, w')
       end.

(** A throwing operation: [None] is the exception. *)
Definition try {R} (o : option R) : M R := λ w, (o, w).

(** Reading a data member of [*this]. *)
Definition member {R} (f : Self → R) : M R := λ w, (Some (f (self w)), w).

(** Calling a [const] member function, which may throw. *)
Definition const_call {R} (f : Self → option R) : M R := λ w, (f (self w), w).

(** Assigning to data members of [*this]. *)
Definition update (f : Self → Self) : M unit :=
  λ w, (Some (), mkWorld (f (self w)) (trace w)).

(** A call that leaves this translation unit. *)
Definition outside {R} (e : Event) (o : option R) : M R :=
  λ w, (o, mkWorld (self w) (trace w ++ [e])).
End Monad.
Arguments World : clear implicits.
Arguments M : clear implicits.

Declare Scope casoc_scope.
Delimit Scope casoc_scope with casoc.
Notation "'let*' x := m 'in' k" := (bind m (λ x, k))
  (at level 10, x pattern, m at level 100, k at level 200) : casoc_scope.

Section Transcription.
Context {Var double sym Problem info NlpFunction : Type}.
(** The enumeration: the integer of each identifier and the two
    identifiers [solve] names. *)
Context (var_int : Var → Z) (initial_time final_time : Var).
(** Doubles: the operators, [std::numeric_limits<double>::infinity()]
    and the unary minus. *)
Context `{Arith double} (infinity : double) (dneg : double → double).
(** [Bounds::isSet]. *)
Context (isSet : Bounds double → bool).

Abbreviation DM := (Matrix double).
Abbreviation MX := (Matrix sym).
Abbreviation TIterate := (Iterate Var double info).
Abbreviation TSolution := (Solution Var double info).
Abbreviation TTranscription := (Transcription Var double sym Problem).

(** What [solve] calls outside this file: [Iterate::resample],
    [Problem::createIterate<Solution>], [casadi::nlpsol] and the
    evaluation of the function object it returns.  An evaluation yields
    the result dictionary together with the statistics that [stats()]
    reports once it is over.  [None] is an exception. *)
Context (resample : TIterate → DM → option TIterate).
Context (createIterate : Problem → TSolution).
Context (nlpsol : string → string → gmap string MX → Dict double
                  → option NlpFunction).
Context (nlpFunc_call : NlpFunction → gmap string DM
                        → option (gmap string DM * Dict double)).
(** The scheme's override of the pure virtual
    [createQuadratureCoefficientsImpl]. *)
Context (createQuadratureCoefficientsImpl : TTranscription → DM).

Inductive Event : Type :=
  | EvResample (guess : TIterate) (newTimes : DM)
  | EvNlpsol (name solver : string) (nlp : gmap string MX) (options : Dict double)
  | EvCall (nlpFunc : NlpFunction) (args : gmap string DM).

Abbreviation TM := (M TTranscription Event).

(** [vars[key]] read as a value: the entry is created, empty, when it
    is missing. *)
Definition Variables_touch {A} (vars : Variables Var (Matrix A)) (key : Var)
    : Variables Var (Matrix A) :=
  match Variables_at var_int vars key with
  | Some _ => vars
  | None => (key, Matrix_default) :: vars
  end.

(** [createTimes], instantiated at [DM]. *)
Definition createTimes (t : TTranscription) (initialTime finalTime : DM)
    : option DM :=
  duration ← binary minus_op finalTime initialTime;
  scaled ← binary times_op duration (m_grid t);
  binary plus_op scaled initialTime.

Definition createQuadratureCoefficients (t : TTranscription) : DM :=
  createQuadratureCoefficientsImpl t.

(** The actual times in the words of the specification: every point of
    the normalised grid times (finalTime - initialTime), plus
    initialTime. *)
Definition spec_actual_times (grid : DM) (initialTime finalTime : double) : DM :=
  mkMatrix (rows grid) (columns grid)
    ((λ g, plus_op (times_op g (minus_op finalTime initialTime)) initialTime)
       <$> elems grid).

Definition set_m_lowerBounds (v : Variables Var DM) (t : TTranscription)
    : TTranscription :=
  mkTranscription (m_solver t) (m_problem t) (m_vars t) v (m_upperBounds t)
    (m_numGridPoints t) (m_grid t) (m_times t) (m_duration t) (xdot t)
    (qerr t) (m_objective t) (m_constraints t) (m_constraintsLowerBounds t)
    (m_constraintsUpperBounds t).

Definition set_m_upperBounds (v : Variables Var DM) (t : TTranscription)
    : TTranscription :=
  mkTranscription (m_solver t) (m_problem t) (m_vars t) (m_lowerBounds t) v
    (m_numGridPoints t) (m_grid t) (m_times t) (m_duration t) (xdot t)
    (qerr t) (m_objective t) (m_constraints t) (m_constraintsLowerBounds t)
    (m_constraintsUpperBounds t).

(** [member[var](rowIndices, columnIndices) = value] on one of the two
    bound maps: [operator[]] creates a missing entry before the region is
    written, so the entry stays behind when the write throws. *)
Definition assign_region (get : TTranscription → Variables Var DM)
    (set : Variables Var DM → TTranscription → TTranscription)
    (var : Var) (rowIndices columnIndices : list nat) (value : double)
    : TM unit :=
  (let* _ := update (λ t, set (Variables_touch (get t) var) t) in
   let* m := const_call (λ t, Variables_at var_int (get t) var) in
   let* m' := try (set_region m rowIndices columnIndices value) in
   update (λ t, set (Variables_set var_int (get t) var m') t))%casoc.

Definition setVariableBounds (var : Var) (rowIndices columnIndices : list nat)
    (bounds : Bounds double) : TM unit :=
  (if isSet bounds then
     let* _ := assign_region m_lowerBounds set_m_lowerBounds var
                 rowIndices columnIndices (lower bounds) in
     assign_region m_upperBounds set_m_upperBounds var
       rowIndices columnIndices (upper bounds)
   else
     let* _ := assign_region m_lowerBounds set_m_lowerBounds var
                 rowIndices columnIndices (dneg infinity) in
     assign_region m_upperBounds set_m_upperBounds var
       rowIndices columnIndices infinity)%casoc.

(** The options handed to [nlpsol]: the plugin options, to which the
    solver's own options are added under the solver's name when the
    plugin options are not empty. *)
Definition solve_options (solver : Solver double) : Dict double :=
  let options := getPluginOptions solver in
  if bool_decide (size options ≠ 0)
  then <[getOptimSolver solver := GT_dict (getSolverOptions solver)]> options
  else options.

(** The argument dictionaries of the solver evaluations that a trace
    records, in order. *)
Definition solver_calls (events : list Event) : list (gmap string DM) :=
  omap (λ e, match e with EvCall _ args => Some args | _ => None end) events.

(** The option dictionaries of the solver constructions that a trace
    records, in order. *)
Definition solver_options (events : list Event) : list (Dict double) :=
  omap (λ e, match e with EvNlpsol _ _ _ options => Some options | _ => None end)
    events.

Definition solve (guessOrig : TIterate) : TM TSolution :=
  (let* initialTime := try (Variables_at var_int (variables guessOrig) initial_time) in
   let* finalTime := try (Variables_at var_int (variables guessOrig) final_time) in
   let* newTimes := const_call (λ t, createTimes t initialTime finalTime) in
   let* guess := outside (EvResample guessOrig newTimes)
                   (resample guessOrig newTimes) in
   let* solver := member m_solver in
   let options := solve_options solver in
   let* x := const_call (λ t, flatten var_int (m_vars t)) in
   let nlp := emplace "x" x ∅ in
   let* f := member m_objective in
   let nlp := emplace "f" f nlp in
   let* g := member (λ t, veccat (m_constraints t)) in
   let nlp := emplace "g" g nlp in
   let* nlpFunc := outside (EvNlpsol "nlp" (getOptimSolver solver) nlp options)
                     (nlpsol "nlp" (getOptimSolver solver) nlp options) in
   let* x0 := try (flatten var_int (variables guess)) in
   let* lbx := const_call (λ t, flatten var_int (m_lowerBounds t)) in
   let* ubx := const_call (λ t, flatten var_int (m_upperBounds t)) in
   let* lbg := member (λ t, veccat (m_constraintsLowerBounds t)) in
   let* ubg := member (λ t, veccat (m_constraintsUpperBounds t)) in
   let args : gmap string DM :=
     list_to_map [("x0", x0); ("lbx", lbx); ("ubx", ubx);
                  ("lbg", lbg); ("ubg", ubg)] in
   let* evaluated := outside (EvCall nlpFunc args) (nlpFunc_call nlpFunc args) in
   let nlpResult := evaluated.1 in
   let* problem := member m_problem in
   let solution := createIterate problem in
   let* xres := try (nlpResult !! "x") in
   let* expanded := const_call (λ t, expand var_int (m_vars t) xres) in
   let vars := Variables_touch (Variables_touch expanded initial_time) final_time in
   let* solvedInitial := try (Variables_at var_int vars initial_time) in
   let* solvedFinal := try (Variables_at var_int vars final_time) in
   let* solvedTimes := const_call (λ t, createTimes t solvedInitial solvedFinal) in
   ret (mkSolution
          (mkIterate vars solvedTimes (iterate_info (iterate solution)))
          evaluated.2))%casoc.
End Transcription.

(** ** A small instance

    A concrete enumeration, number type, solver and transcription object,
    used to run the definitions above on explicit inputs. *)

(** Modelled from the spec: the enumeration [Var] is declared in a header
    that is not part of these sources; section 3 of the specification
    names the kinds of variable block (state, control, parameter, initial
    time, final time, slack).  The integers are those of the order written
    here; the statements below hold for every enumeration and order. *)
Inductive ExVar : Type :=
  | ex_initial_time
  | ex_final_time
  | ex_states
  | ex_controls
  | ex_parameters
  | ex_slacks.

Definition ex_var_int (v : ExVar) : Z :=
  match v with
  | ex_initial_time => 0
  | ex_final_time => 1
  | ex_states => 2
  | ex_controls => 3
  | ex_parameters => 4
  | ex_slacks => 5
  end.

Global Instance ExVar_eq_dec : EqDecision ExVar.
Proof. solve_decision. Defined.

(** Numbers with the two infinities and not-a-number, over the integers:
    enough of a [double] to run the code on. *)
Inductive ExNum : Type :=
  | Fin (z : Z)
  | Inf (negative : bool)
  | NaN.

Global Instance ExNum_eq_dec : EqDecision ExNum.
Proof. solve_decision. Defined.

Definition ex_neg (a : ExNum) : ExNum :=
  match a with
  | Fin z => Fin (- z)
  | Inf negative => Inf (negb negative)
  | NaN => NaN
  end.

Definition ex_plus (a b : ExNum) : ExNum :=
  match a, b with
  | Fin x, Fin y => Fin (x + y)
  | Inf s, Inf s' => if bool_decide (s = s') then Inf s else NaN
  | Inf s, Fin _ | Fin _, Inf s => Inf s
  | _, _ => NaN
  end.

Definition ex_times (a b : ExNum) : ExNum :=
  match a, b with
  | Fin x, Fin y => Fin (x * y)
  | Inf s, Inf s' => Inf (xorb s s')
  | Inf s, Fin z | Fin z, Inf s =>
      if bool_decide (z = 0)%Z then NaN else Inf (xorb s (bool_decide (z < 0)%Z))
  | _, _ => NaN
  end.

Global Instance ExNum_Arith : Arith ExNum := {|
  plus_op := ex_plus;
  minus_op := λ a b, ex_plus a (ex_neg b);
  times_op := ex_times
|}.

(** A bound is set when neither limit is not-a-number. *)
Definition ex_isSet (b : Bounds ExNum) : bool :=
  match lower b, upper b with
  | NaN, _ | _, NaN => false
  | _, _ => true
  end.

(** Resampling that keeps the blocks and takes over the new times. *)
Definition ex_resample (guess : Iterate ExVar ExNum unit) (newTimes : Matrix ExNum)
    : option (Iterate ExVar ExNum unit) :=
  Some (mkIterate (variables guess) newTimes (iterate_info guess)).

Definition ex_createIterate (problem : unit) : Solution ExVar ExNum unit :=
  mkSolution (mkIterate [] Matrix_default tt) ∅.

(** A solver that gives up at once: it hands back the initial guess and
    reports that it did not converge. *)
Definition ex_nlpsol (name solver : string) (nlp : gmap string (Matrix unit))
    (options : Dict ExNum) : option unit :=
  Some tt.

Definition ex_stats : Dict ExNum :=
  {[ "success" := GT_bool false;
     "return_status" := GT_string "Maximum_Iterations_Exceeded" ]}.

Definition ex_nlpFunc_call (nlpFunc : unit) (args : gmap string (Matrix ExNum))
    : option (gmap string (Matrix ExNum) * Dict ExNum) :=
  x0 ← args !! "x0";
  Some ({[ "x" := x0 ]}, ex_stats).

Definition ex_solver : Solver ExNum :=
  mkSolver {[ "verbose_init" := GT_bool true ]} "ipopt"
    {[ "max_iter" := GT_int 100 ]}.

(** Two grid points; a scalar initial and final time and one state over
    the grid.  The lower bound of the state exceeds its upper bound. *)
Definition ex_transcription : Transcription ExVar ExNum unit unit :=
  mkTranscription ex_solver tt
    [(ex_states, mkMatrix 1 2 [tt; tt]);
     (ex_final_time, mkMatrix 1 1 [tt]);
     (ex_initial_time, mkMatrix 1 1 [tt])]
    [(ex_initial_time, scalar (Fin 0));
     (ex_final_time, scalar (Fin 1));
     (ex_states, mkMatrix 1 2 [Fin 5; Fin 5])]
    [(ex_initial_time, scalar (Fin 0));
     (ex_final_time, scalar (Fin 9));
     (ex_states, mkMatrix 1 2 [Fin 3; Fin 3])]
    2 (mkMatrix 1 2 [Fin 0; Fin 1])
    (mkMatrix 1 2 [tt; tt]) (scalar tt) Matrix_default Matrix_default
    (scalar tt) [mkMatrix 1 1 [tt]] [scalar (Fin 0)] [scalar (Fin 0)].

Definition ex_guess : Iterate ExVar ExNum unit :=
  mkIterate
    [(ex_final_time, scalar (Fin 4));
     (ex_states, mkMatrix 1 2 [Fin 7; Fin 8]);
     (ex_initial_time, scalar (Fin 2))]
    (mkMatrix 1 2 [Fin 2; Fin 4]) tt.

Definition ex_solve (guess : Iterate ExVar ExNum unit)
    : M (Transcription ExVar ExNum unit unit)
        (Event (Var:=ExVar) (double:=ExNum) (sym:=unit) (info:=unit)
               (NlpFunction:=unit))
        (Solution ExVar ExNum unit) :=
  solve ex_var_int ex_initial_time ex_final_time ex_resample ex_createIterate
    ex_nlpsol ex_nlpFunc_call guess.

(** The same blocks as [ex_guess], handed out in another order. *)
Definition ex_guess_reordered : Variables ExVar (Matrix ExNum) :=
  [(ex_initial_time, scalar (Fin 2));
   (ex_states, mkMatrix 1 2 [Fin 7; Fin 8]);
   (ex_final_time, scalar (Fin 4))].

(** A flat vector with two entries more than the store has room for. *)
Definition ex_long_vector : Matrix ExNum :=
  mkMatrix 6 1 [Fin 10; Fin 11; Fin 12; Fin 13; Fin 14; Fin 15].

(** What the solver of this instance makes of [ex_guess]. *)
Definition ex_solution : Solution ExVar ExNum unit :=
  mkSolution
    (mkIterate
       [(ex_states, mkMatrix 1 2 [Fin 7; Fin 8]);
        (ex_final_time, scalar (Fin 4));
        (ex_initial_time, scalar (Fin 2))]
       (mkMatrix 1 2 [Fin 2; Fin 4]) tt)
    ex_stats.

(** Bounds that are not set. *)
Definition ex_unset : Bounds ExNum := mkBounds NaN NaN.

(** ** Further members and vocabulary *)

Section MoreMembers.
Context {Var double sym Problem info NlpFunction : Type}.
Context (resample : Iterate Var double info → Matrix double
                    → option (Iterate Var double info)).
Context (nlpsol : string → string → gmap string (Matrix sym) → Dict double
                  → option NlpFunction).
Context (nlpFunc_call : NlpFunction → gmap string (Matrix double)
                        → option (gmap string (Matrix double) * Dict double)).

Definition set_m_objective (v : Matrix sym)
    (t : Transcription Var double sym Problem)
    : Transcription Var double sym Problem :=
  mkTranscription (m_solver t) (m_problem t) (m_vars t) (m_lowerBounds t)
    (m_upperBounds t) (m_numGridPoints t) (m_grid t) (m_times t) (m_duration t)
    (xdot t) (qerr t) v (m_constraints t) (m_constraintsLowerBounds t)
    (m_constraintsUpperBounds t).

(** [setObjective]: [m_objective = std::move(objective)]. *)
Definition setObjective (objective : Matrix sym)
    : M (Transcription Var double sym Problem)
        (Event (Var:=Var) (double:=double) (sym:=sym) (info:=info)
               (NlpFunction:=NlpFunction)) unit :=
  update (set_m_objective objective).

(** The outside call that an event records ended in an exception. *)
Definition outside_failed
    (e : Event (Var:=Var) (double:=double) (sym:=sym) (info:=info)
               (NlpFunction:=NlpFunction)) : Prop :=
  match e with
  | EvResample guess newTimes => resample guess newTimes = None
  | EvNlpsol name solver nlp options => nlpsol name solver nlp options = None
  | EvCall nlpFunc args => nlpFunc_call nlpFunc args = None
  end.
End MoreMembers.

(** The object of the instance with a solver that has solver options but
    no plugin options. *)
Definition ex_transcription_bare : Transcription ExVar ExNum unit unit :=
  mkTranscription (mkSolver ∅ "ipopt" {[ "max_iter" := GT_int 100 ]}) tt
    (m_vars ex_transcription) (m_lowerBounds ex_transcription)
    (m_upperBounds ex_transcription) 2 (m_grid ex_transcription)
    (m_times ex_transcription) (m_duration ex_transcription)
    Matrix_default Matrix_default (m_objective ex_transcription)
    (m_constraints ex_transcription)
    (m_constraintsLowerBounds ex_transcription)
    (m_constraintsUpperBounds ex_transcription).

(** The arguments on which [solve] evaluates the solver of the instance
    for [ex_guess]. *)
Definition ex_args : gmap string (Matrix ExNum) :=
  list_to_map
    [("x0", mkMatrix 4 1 [Fin 2; Fin 4; Fin 7; Fin 8]);
     ("lbx", mkMatrix 4 1 [Fin 0; Fin 1; Fin 5; Fin 5]);
     ("ubx", mkMatrix 4 1 [Fin 0; Fin 9; Fin 3; Fin 3]);
     ("lbg", mkMatrix 1 1 [Fin 0]);
     ("ubg", mkMatrix 1 1 [Fin 0])].

(** The state of the instance with its record of outside calls empty. *)
Definition ex_world
    : World (Transcription ExVar ExNum unit unit)
        (Event (Var:=ExVar) (double:=ExNum) (sym:=unit) (info:=unit)
               (NlpFunction:=unit)) :=
  mkWorld ex_transcription [].

(** [setVariableBounds] of the instance, on the first column of the
    state. *)
Definition ex_setVariableBounds (bounds : Bounds ExNum)
    : M (Transcription ExVar ExNum unit unit)
        (Event (Var:=ExVar) (double:=ExNum) (sym:=unit) (info:=unit)
               (NlpFunction:=unit)) unit :=
  setVariableBounds ex_var_int (Inf false) ex_neg ex_isSet ex_states [0] [0]
    bounds.

(** * Properties *)

(** ** The variable maps and the sorted keys *)

Section CodecFacts.
Context {Var : Type} (var_int : Var → Z) `{!Inj (=) (=) var_int}.

Global Instance var_le_trans : Transitive (var_le var_int).
Proof using Type. intros a b c. unfold var_le. lia. Qed.

Global Instance var_le_total : Total (var_le var_int).
Proof using Type. intros a b. unfold var_le. lia. Qed.

Global Instance var_le_antisymm : AntiSymm (=) (var_le var_int).
Proof using Type*.
  intros a b Hab Hba. unfold var_le in *. apply (inj var_int). lia.
Qed.

Lemma var_eqb_eq a b : var_eqb var_int a b = true ↔ a = b.
Proof using Type*.
  unfold var_eqb. rewrite bool_decide_eq_true. split; [apply (inj _)|congruence].
Qed.

Lemma var_eqb_refl a : var_eqb var_int a a = true.
Proof using Type. unfold var_eqb. by rewrite bool_decide_eq_true. Qed.

Lemma var_eqb_neq a b : var_eqb var_int a b = false ↔ a ≠ b.
Proof using Type*.
  rewrite <- var_eqb_eq. destruct (var_eqb var_int a b); naive_solver.
Qed.

Section Lookup.
Context {T : Type}.
Implicit Types vars : Variables Var T.

Lemma Variables_at_Some_elem vars key v :
  Variables_at var_int vars key = Some v → (key, v) ∈ vars.
Proof using Type*.
  induction vars as [|[k w] rest IH]; simpl; [done|].
  destruct (var_eqb var_int k key) eqn:E.
  - apply var_eqb_eq in E as ->. intros [= ->]. left.
  - intros ?. right. auto.
Qed.

Lemma Variables_at_is_Some vars key :
  is_Some (Variables_at var_int vars key) ↔ key ∈ keys vars.
Proof using Type*.
  unfold keys. induction vars as [|[k w] rest IH]; simpl.
  - split; [by intros [? ?]|by intros ?%elem_of_nil].
  - rewrite elem_of_cons. destruct (var_eqb var_int k key) eqn:E.
    + apply var_eqb_eq in E as ->. split; eauto.
    + apply var_eqb_neq in E. rewrite IH. split; [by right|].
      by intros [->|?].
Qed.

Lemma Variables_at_None vars key :
  Variables_at var_int vars key = None ↔ key ∉ keys vars.
Proof using Type*.
  rewrite <- Variables_at_is_Some, eq_None_not_Some. done.
Qed.

Lemma Variables_at_elem vars key v :
  NoDup (keys vars) → (key, v) ∈ vars → Variables_at var_int vars key = Some v.
Proof using Type*.
  unfold keys. induction vars as [|[k w] rest IH]; simpl.
  - by intros _ ?%elem_of_nil.
  - intros [Hk Hnd]%NoDup_cons [[= <- <-]|Hin]%elem_of_cons.
    + by rewrite var_eqb_refl.
    + destruct (var_eqb var_int k key) eqn:E; [|by auto].
      apply var_eqb_eq in E as ->. destruct Hk.
      apply list_elem_of_fmap. by exists (key, v).
Qed.

(** The sorted keys are the keys, in increasing order. *)
Lemma getSortedVarKeys_Permutation vars :
  getSortedVarKeys var_int vars ≡ₚ keys vars.
Proof using Type. apply merge_sort_Permutation. Qed.

Lemma getSortedVarKeys_sorted vars :
  StronglySorted (var_le var_int) (getSortedVarKeys var_int vars).
Proof using Type. apply StronglySorted_merge_sort; apply _. Qed.

Lemma getSortedVarKeys_elem vars key :
  key ∈ getSortedVarKeys var_int vars ↔ key ∈ keys vars.
Proof using Type. by rewrite getSortedVarKeys_Permutation. Qed.

Lemma getSortedVarKeys_NoDup vars :
  NoDup (keys vars) → NoDup (getSortedVarKeys var_int vars).
Proof using Type. by rewrite getSortedVarKeys_Permutation. Qed.
End Lookup.

(** Sorting forgets the iteration order: maps with the same keys have
    the same sorted keys, whatever their value types. *)
Lemma getSortedVarKeys_unique {T U} (a : Variables Var T) (b : Variables Var U) :
  keys a ≡ₚ keys b → getSortedVarKeys var_int a = getSortedVarKeys var_int b.
Proof using Type*.
  intros Hperm. apply (StronglySorted_unique (var_le var_int));
    [apply getSortedVarKeys_sorted..|].
  by rewrite !getSortedVarKeys_Permutation.
Qed.

Lemma keys_Permutation_of_lookup {T U} (a : Variables Var T) (b : Variables Var U) :
  NoDup (keys a) → NoDup (keys b) →
  (∀ key, is_Some (Variables_at var_int a key) ↔ is_Some (Variables_at var_int b key)) →
  keys a ≡ₚ keys b.
Proof using Type*.
  intros Ha Hb Hl. apply NoDup_Permutation; [done..|].
  intros key. by rewrite <- !Variables_at_is_Some.
Qed.
End CodecFacts.

(** ** flatten *)

Section FlattenFacts.
Context {Var : Type} (var_int : Var → Z) `{!Inj (=) (=) var_int}.
Context {A : Type}.
Implicit Types vars : Variables Var (Matrix A).

Lemma mapM_Some_fmap {X Y} (f : X → option Y) (g : X → Y) (l : list X) :
  Forall (λ x, f x = Some (g x)) l → mapM f l = Some (g <$> l).
Proof using Type.
  intros Hl. apply mapM_Some_2, Forall2_fmap_r, Forall_Forall2_diag.
  done.
Qed.

(** [flatten] never throws: [at] is only asked for keys of the map. *)
Lemma flatten_eq vars :
  flatten var_int vars
  = Some (veccat (block_at var_int vars <$> getSortedVarKeys var_int vars)).
Proof using Type*.
  unfold flatten. erewrite mapM_Some_fmap; [done|].
  apply Forall_forall. intros key Hkey.
  apply getSortedVarKeys_elem, (Variables_at_is_Some var_int) in Hkey as [v Hv].
  unfold block_at. by rewrite Hv.
Qed.

Lemma flatten_ext vars vars' :
  NoDup (keys vars) → NoDup (keys vars') →
  (∀ key, Variables_at var_int vars key = Variables_at var_int vars' key) →
  flatten var_int vars = flatten var_int vars'.
Proof using Type*.
  intros Hnd Hnd' Hat. rewrite !flatten_eq.
  rewrite (getSortedVarKeys_unique var_int vars vars').
  - do 2 f_equal. apply list_fmap_ext. intros _ key _.
    unfold block_at. by rewrite Hat.
  - apply (keys_Permutation_of_lookup var_int); [done..|].
    intros key. by rewrite Hat.
Qed.

Lemma sum_block_numel_keys vars :
  NoDup (keys vars) →
  sum_list (block_numel var_int vars <$> keys vars) = total_numel vars.
Proof using Type*.
  unfold total_numel, keys. intros Hnd.
  assert (Forall (λ kv, Variables_at var_int vars kv.1 = Some kv.2) vars) as Hall.
  { apply Forall_forall. intros [k v] Hin.
    by apply (Variables_at_elem var_int). }
  clear Hnd. revert Hall. generalize vars at 1 3 as store.
  induction vars as [|[k v] rest IH]; intros store; [done|].
  intros [Hk Hrest]%Forall_cons. cbn [fmap list_fmap fst snd] in *.
  csimpl. unfold block_numel at 1. rewrite Hk. simpl.
  f_equal. by apply IH.
Qed.

Lemma sum_block_numel_sorted vars :
  NoDup (keys vars) →
  sum_list (block_numel var_int vars <$> getSortedVarKeys var_int vars)
  = total_numel vars.
Proof using Type*.
  intros Hnd. rewrite getSortedVarKeys_Permutation.
  by apply sum_block_numel_keys.
Qed.
End FlattenFacts.

(** ** expand *)

Section ExpandFacts.
Context {Var : Type} (var_int : Var → Z) `{!Inj (=) (=) var_int}.

Lemma Variables_at_overwrite {T} (vars : Variables Var T) key value key' :
  Variables_at var_int
    ((λ kv : Var * T, if var_eqb var_int kv.1 key then (kv.1, value) else kv)
       <$> vars) key'
  = if var_eqb var_int key key'
    then (λ _, value) <$> Variables_at var_int vars key
    else Variables_at var_int vars key'.
Proof using Type*.
  induction vars as [|[k v] rest IH]; csimpl.
  - by destruct (var_eqb var_int key key').
  - destruct (var_eqb var_int k key) eqn:Ek; simpl.
    + apply var_eqb_eq in Ek as ->; [|done].
      destruct (var_eqb var_int key key'); [done|]. by rewrite IH.
    + rewrite IH. destruct (var_eqb var_int k key') eqn:Ek'; [|done].
      apply var_eqb_eq in Ek' as ->; [|done].
      apply var_eqb_neq in Ek; [|done].
      destruct (var_eqb var_int key key') eqn:E; [|done].
      apply var_eqb_eq in E; [|done]. by subst.
Qed.

Lemma Variables_at_set {T} (vars : Variables Var T) key value key' :
  Variables_at var_int (Variables_set var_int vars key value) key'
  = if var_eqb var_int key key' then Some value
    else Variables_at var_int vars key'.
Proof using Type*.
  unfold Variables_set.
  destruct (Variables_at var_int vars key) as [old|] eqn:Hat.
  - by rewrite Variables_at_overwrite, Hat.
  - done.
Qed.

Lemma Variables_set_fresh {T} (vars : Variables Var T) key value :
  key ∉ keys vars → Variables_set var_int vars key value = (key, value) :: vars.
Proof using Type*.
  intros Hfresh%(Variables_at_None var_int). unfold Variables_set.
  by rewrite Hfresh.
Qed.

Context {S A : Type}.
Implicit Types m_vars : Variables Var (Matrix S).
Implicit Types x : Matrix A.

Lemma offset_before_tail m_vars k rest key :
  k ≠ key →
  offset_before var_int m_vars (k :: rest) key
  = block_numel var_int m_vars k + offset_before var_int m_vars rest key.
Proof using Type*. intros Hne%(var_eqb_neq var_int). simpl. by rewrite Hne. Qed.

(** One turn of the loop of [expand], for a key the map has and a vector
    that is long enough. *)
Lemma expand_loop_step m_vars x key sorted offset out :
  key ∈ keys m_vars →
  offset + block_numel var_int m_vars key ≤ numel x →
  expand_loop var_int m_vars x (key :: sorted) offset out
  = expand_loop var_int m_vars x sorted
      (offset + block_numel var_int m_vars key)
      (Variables_set var_int out key (expanded_block var_int m_vars x offset key)).
Proof using Type*.
  intros [value Hat]%(Variables_at_is_Some var_int) Hlen. simpl.
  unfold block_numel, expanded_block, block_at, block_numel in *.
  rewrite Hat in *. simpl in *.
  unfold slice. rewrite decide_True by done. simpl.
  unfold reshape. rewrite decide_True by (unfold numel; simpl; lia). simpl.
  by replace (offset + numel value - offset) with (numel value) by lia.
Qed.

(** The loop invariant of [expand]: after the keys of [sorted], [out]
    has gained exactly these keys, each with the slice of [x] that starts
    where the blocks of the keys before it end. *)
Lemma expand_loop_spec m_vars x sorted : ∀ offset out,
  NoDup sorted →
  (∀ key, key ∈ sorted → key ∈ keys m_vars) →
  (∀ key, key ∈ sorted → key ∉ keys out) →
  offset + sum_list (block_numel var_int m_vars <$> sorted) ≤ numel x →
  ∃ out',
    expand_loop var_int m_vars x sorted offset out = Some out' ∧
    keys out' = reverse sorted ++ keys out ∧
    (∀ key, key ∈ sorted →
       Variables_at var_int out' key
       = Some (expanded_block var_int m_vars x
                 (offset + offset_before var_int m_vars sorted key) key)) ∧
    (∀ key, key ∉ sorted →
       Variables_at var_int out' key = Variables_at var_int out key).
Proof using Type*.
  induction sorted as [|k rest IH]; intros offset out Hnd Hin Hfresh Hlen.
  - exists out. split_and!; [done..| |done]. by intros key ?%elem_of_nil.
  - apply NoDup_cons in Hnd as [Hk Hnd]. csimpl in Hlen.
    rewrite expand_loop_step; [|apply Hin; left|lia].
    rewrite Variables_set_fresh by (apply Hfresh; left).
    edestruct (IH (offset + block_numel var_int m_vars k)
                 ((k, expanded_block var_int m_vars x offset k) :: out))
      as (out' & Hrun & Hkeys & Hin' & Hout').
    + done.
    + intros key Hkey. apply Hin. by right.
    + intros key Hkey. unfold keys. csimpl. rewrite not_elem_of_cons. split.
      * intros ->. done.
      * apply Hfresh. by right.
    + lia.
    + exists out'. split_and!; [done| | |].
      * rewrite Hkeys. unfold keys. csimpl. rewrite reverse_cons.
        by rewrite <- app_assoc.
      * intros key [->|Hrest]%elem_of_cons.
        -- rewrite Hout' by done. simpl.
           rewrite !var_eqb_refl. by rewrite Nat.add_0_r.
        -- rewrite Hin' by done.
           rewrite offset_before_tail by (by intros ->).
           by rewrite Nat.add_assoc.
      * intros key [Hne Hrest]%not_elem_of_cons.
        rewrite Hout' by done. simpl.
        assert (var_eqb var_int k key = false) as ->; [|done].
        by apply var_eqb_neq.
Qed.

Lemma block_numel_eq {B} (vars : Variables Var (Matrix B)) key :
  block_numel var_int vars key = numel (block_at var_int vars key).
Proof using Type.
  unfold block_numel, block_at. by destruct (Variables_at var_int vars key).
Qed.


(** Slices cut at consecutive offsets, put back one after the other, are
    the stretch of the vector they were cut from. *)
Lemma concat_slices m_vars (xs : list A) sorted : ∀ offset,
  NoDup sorted →
  concat ((λ key, take (block_numel var_int m_vars key)
                    (drop (offset + offset_before var_int m_vars sorted key) xs))
            <$> sorted)
  = take (sum_list (block_numel var_int m_vars <$> sorted)) (drop offset xs).
Proof using Type*.
  induction sorted as [|k rest IH]; intros offset Hnd; [done|].
  apply NoDup_cons in Hnd as [Hk Hnd]. csimpl.
  rewrite var_eqb_refl, Nat.add_0_r.
  rewrite <- take_take_drop, drop_drop. f_equal.
  rewrite <- (IH (offset + block_numel var_int m_vars k)) by done.
  f_equal. apply list_fmap_ext. intros _ key Hkey%list_elem_of_lookup_2.
  assert (var_eqb var_int k key = false) as ->.
  { apply var_eqb_neq; [done|]. by intros ->. }
  by rewrite Nat.add_assoc.
Qed.

End ExpandFacts.

(** ** The codec: what expand returns, and the round trip *)

Section CodecTheorems.
Context {Var : Type} (var_int : Var → Z) `{!Inj (=) (=) var_int}.
Context {S A : Type}.
Implicit Types m_vars : Variables Var (Matrix S).

Lemma expand_spec m_vars (x : Matrix A) :
  NoDup (keys m_vars) →
  total_numel m_vars ≤ numel x →
  ∃ out,
    expand var_int m_vars x = Some out ∧
    keys out ≡ₚ keys m_vars ∧
    ∀ key, key ∈ keys m_vars →
      Variables_at var_int out key
      = Some (expanded_block var_int m_vars x (sorted_offset var_int m_vars key) key).
Proof using Type*.
  intros Hnd Hlen. unfold expand, sorted_offset.
  destruct (expand_loop_spec var_int m_vars x
              (getSortedVarKeys var_int m_vars) 0 [])
    as (out & Hrun & Hkeys & Hin & _).
  - by apply getSortedVarKeys_NoDup.
  - intros key. by rewrite getSortedVarKeys_elem.
  - intros key _. apply not_elem_of_nil.
  - by rewrite (sum_block_numel_sorted var_int).
  - exists out. split_and!; [done| |].
    + rewrite Hkeys, app_nil_r, reverse_Permutation.
      apply getSortedVarKeys_Permutation.
    + intros key Hkey. rewrite Hin; [done|].
      by apply getSortedVarKeys_elem.
Qed.


Implicit Types vals : Variables Var (Matrix A).

Lemma same_shape_is_Some m_vars vals key :
  same_shape var_int m_vars vals →
  is_Some (Variables_at var_int m_vars key) ↔ is_Some (Variables_at var_int vals key).
Proof using Type. intros Hs. by rewrite <- !(fmap_is_Some shape), Hs. Qed.

Lemma same_shape_block_numel m_vars vals key :
  same_shape var_int m_vars vals →
  block_numel var_int m_vars key = block_numel var_int vals key.
Proof using Type.
  intros Hs. specialize (Hs key). unfold block_numel.
  destruct (Variables_at var_int m_vars key) as [a|],
    (Variables_at var_int vals key) as [b|]; simplify_eq/=; [|done].
  unfold numel. congruence.
Qed.

Lemma same_shape_sorted_keys m_vars vals :
  NoDup (keys m_vars) → NoDup (keys vals) →
  same_shape var_int m_vars vals →
  getSortedVarKeys var_int vals = getSortedVarKeys var_int m_vars.
Proof using Type*.
  intros Hnd Hnd' Hs. apply (getSortedVarKeys_unique var_int).
  apply (keys_Permutation_of_lookup var_int); [done..|].
  intros key. by rewrite (same_shape_is_Some m_vars vals).
Qed.

Lemma wf_block_at vals key : wf_blocks vals → wf_matrix (block_at var_int vals key).
Proof using Type*.
  intros Hwf. unfold block_at.
  destruct (Variables_at var_int vals key) as [v|] eqn:Hv; [|done].
  apply (Variables_at_Some_elem var_int) in Hv.
  unfold wf_blocks in Hwf. rewrite Forall_forall in Hwf. apply Hwf.
  apply list_elem_of_fmap. by exists (key, v).
Qed.

Lemma length_concat_elems (l : list (Matrix A)) :
  Forall wf_matrix l → length (concat (elems <$> l)) = sum_list (numel <$> l).
Proof using Type.
  induction 1 as [|m l Hm _ IH]; [done|]. csimpl.
  rewrite length_app, IH. by rewrite Hm.
Qed.

(** What [flatten] makes of a map of the shape of the store, [expand]
    accepts, and flattening the expanded map gives the vector back. *)
Lemma flatten_expand_flatten m_vars vals :
  NoDup (keys m_vars) →
  NoDup (keys vals) →
  same_shape var_int m_vars vals →
  wf_blocks vals →
  ∃ v out,
    flatten var_int vals = Some v ∧
    expand var_int m_vars v = Some out ∧
    flatten var_int out = Some v.
Proof using Type*.
  intros Hnd Hnd' Hshape Hwf.
  pose proof (same_shape_sorted_keys m_vars vals Hnd Hnd' Hshape) as Hsorted.
  set (ks := getSortedVarKeys var_int m_vars) in *.
  set (v := veccat (block_at var_int vals <$> ks)).
  assert (sum_list (numel <$> (block_at var_int vals <$> ks))
          = total_numel m_vars) as Hsum.
  { rewrite <- (sum_block_numel_sorted var_int m_vars) by done.
    rewrite <- list_fmap_compose. f_equal. apply list_fmap_ext.
    intros _ key _. simpl.
    by rewrite <- block_numel_eq, <- (same_shape_block_numel m_vars vals). }
  assert (length (elems v) = total_numel m_vars) as Hlen.
  { unfold v. simpl. rewrite length_concat_elems; [done|].
    apply Forall_fmap, Forall_forall. intros key _. by apply wf_block_at. }
  destruct (expand_spec m_vars v Hnd) as (out & Hrun & Hkeys & Hat).
  { unfold v, numel. simpl. lia. }
  exists v, out. split_and!; [|done|].
  - by rewrite flatten_eq, Hsorted.
  - rewrite flatten_eq by done.
    rewrite (getSortedVarKeys_unique var_int out m_vars Hkeys). fold ks.
    f_equal.
    transitivity (mkMatrix (sum_list (numel <$> (block_at var_int vals <$> ks)))
                    1 (elems v)); [|done].
    unfold veccat. f_equal.
    + rewrite Hsum, <- (sum_block_numel_sorted var_int m_vars) by done.
      rewrite <- list_fmap_compose. f_equal. apply list_fmap_ext.
      intros _ key Hkey%list_elem_of_lookup_2. simpl.
      apply getSortedVarKeys_elem in Hkey. unfold block_at at 1.
      rewrite Hat by done. simpl.
      by rewrite block_numel_eq.
    + transitivity (take (sum_list (block_numel var_int m_vars <$> ks))
                      (drop 0 (elems v))).
      * rewrite <- (concat_slices var_int m_vars (elems v) ks 0)
          by (by apply getSortedVarKeys_NoDup).
        f_equal. rewrite <- list_fmap_compose. apply list_fmap_ext.
        intros _ key Hkey%list_elem_of_lookup_2. simpl.
        apply getSortedVarKeys_elem in Hkey. unfold block_at at 1.
        by rewrite Hat by done.
      * unfold ks. rewrite (sum_block_numel_sorted var_int m_vars) by done.
        rewrite drop_0. apply take_ge. lia.
Qed.
End CodecTheorems.

(** ** Determinism of flatten *)

Section FlattenTheorems.
Context {Var : Type} (var_int : Var → Z) `{!Inj (=) (=) var_int}.
Context {A : Type}.

(** C2.  Two variable maps that assign the same block to every key
    flatten to the same vector, in whatever order their containers hand
    out the entries: the order of concatenation is the sorted order of
    the keys. *)
Theorem flatten_ignores_iteration_order (vars vars' : Variables Var (Matrix A)) :
  NoDup (keys vars) →
  NoDup (keys vars') →
  (∀ key, Variables_at var_int vars key = Variables_at var_int vars' key) →
  ∃ v,
    flatten var_int vars = Some v ∧
    flatten var_int vars' = Some v ∧
    StronglySorted (var_le var_int) (getSortedVarKeys var_int vars) ∧
    getSortedVarKeys var_int vars' = getSortedVarKeys var_int vars.
Proof using Type*.
  intros Hnd Hnd' Hat.
  exists (veccat (block_at var_int vars <$> getSortedVarKeys var_int vars)).
  split_and!.
  - apply flatten_eq; done.
  - rewrite <- (flatten_ext var_int vars vars') by done. apply flatten_eq; done.
  - apply getSortedVarKeys_sorted.
  - apply (getSortedVarKeys_unique var_int).
    apply (keys_Permutation_of_lookup var_int); [done..|].
    intros key. by rewrite Hat.
Qed.
End FlattenTheorems.

(** ** Member functions of the transcription *)

Ltac run_solve :=
  unfold solve, bind, try, const_call, member, outside, ret in *;
  simpl in *;
  repeat (case_match; simplify_eq/=).

Section TimesTheorems.
Context {Var double sym Problem info NlpFunction : Type}.
Context (var_int : Var → Z) (initial_time final_time : Var).
Context `{Arith double}.
Context (resample : Iterate Var double info → Matrix double
                    → option (Iterate Var double info)).
Context (createIterate : Problem → Solution Var double info).
Context (nlpsol : string → string → gmap string (Matrix sym) → Dict double
                  → option NlpFunction).
Context (nlpFunc_call : NlpFunction → gmap string (Matrix double)
                        → option (gmap string (Matrix double) * Dict double)).
Implicit Types t : Transcription Var double sym Problem.

Lemma createTimes_scalars t (initialTime finalTime : double) :
  (∀ a b : double, times_op a b = times_op b a) →
  wf_matrix (m_grid t) →
  createTimes t (scalar initialTime) (scalar finalTime)
  = Some (spec_actual_times (m_grid t) initialTime finalTime).
Proof using Type.
  intros Hcomm Hwf. unfold createTimes, spec_actual_times. simpl.
  unfold binary, numel. simpl.
  destruct (decide (rows (m_grid t) * columns (m_grid t) = 1)) as [Hone|Hmany].
  - unfold wf_matrix, numel in Hwf. rewrite Hone in Hwf.
    destruct (elems (m_grid t)) as [|g [|??]] eqn:Helems; simplify_eq/=.
    apply Nat.eq_mul_1 in Hone as [-> ->]. by rewrite Hcomm.
  - rewrite <- list_fmap_compose. do 2 f_equal.
    apply list_fmap_ext. intros _ g _. simpl. by rewrite Hcomm.
Qed.

(** What [solve] stores as the times of the solution it returns. *)
Lemma solve_times guessOrig w sol w' :
  solve var_int initial_time final_time resample createIterate nlpsol
    nlpFunc_call guessOrig w = (Some sol, w') →
  ∃ solvedInitial solvedFinal,
    Variables_at var_int (variables (iterate sol)) initial_time = Some solvedInitial ∧
    Variables_at var_int (variables (iterate sol)) final_time = Some solvedFinal ∧
    createTimes (self w) solvedInitial solvedFinal = Some (times (iterate sol)).
Proof using Type.
  intros Hrun. run_solve. eauto.
Qed.

End TimesTheorems.

(** ** Writing a region of a matrix *)

Section RegionFacts.
Context {A : Type}.
Implicit Types m : Matrix A.

Lemma length_fill (value : A) (positions : list nat) (l : list A) :
  length (foldr (λ p l, <[p := value]> l) l positions) = length l.
Proof.
  induction positions as [|p ps IH]; [done|]. simpl. by rewrite length_insert.
Qed.

Lemma lookup_fill_in (value : A) (positions : list nat) (l : list A) q :
  q ∈ positions → q < length l →
  foldr (λ p l, <[p := value]> l) l positions !! q = Some value.
Proof.
  induction positions as [|p ps IH]; [by intros ?%elem_of_nil|].
  intros Hin Hq. simpl. destruct (decide (p = q)) as [->|Hne].
  - apply list_lookup_insert_eq. by rewrite length_fill.
  - rewrite list_lookup_insert_ne by done.
    apply elem_of_cons in Hin as [->|Hin]; [done|]. by apply IH.
Qed.

Lemma lookup_fill_out (value : A) (positions : list nat) (l : list A) q :
  q ∉ positions →
  foldr (λ p l, <[p := value]> l) l positions !! q = l !! q.
Proof.
  induction positions as [|p ps IH]; [done|].
  intros [Hne Hout]%not_elem_of_cons. simpl.
  rewrite list_lookup_insert_ne by done. by apply IH.
Qed.

Lemma elem_of_region m rr cc q :
  q ∈ region m rr cc ↔ ∃ i j, i ∈ rr ∧ j ∈ cc ∧ q = i + j * rows m.
Proof.
  unfold region. rewrite list_elem_of_bind. split.
  - intros (j & Hq & Hj). apply list_elem_of_bind in Hq as (i & Hq & Hi).
    apply list_elem_of_singleton in Hq. eauto.
  - intros (i & j & Hi & Hj & ->). exists j. split; [|done].
    apply list_elem_of_bind. exists i. split; [|done].
    by apply list_elem_of_singleton.
Qed.

Lemma set_region_Some m rr cc value :
  Forall (λ i, i < rows m) rr → Forall (λ j, j < columns m) cc →
  ∃ m', set_region m rr cc value = Some m' ∧
        rows m' = rows m ∧ columns m' = columns m ∧
        length (elems m') = length (elems m).
Proof.
  intros Hrr Hcc. unfold set_region. rewrite decide_True by done.
  eexists. split_and!; [done..|]. simpl. apply length_fill.
Qed.

(** Every selected entry holds the value afterwards. *)
Lemma set_region_inside m rr cc value m' i j :
  set_region m rr cc value = Some m' → wf_matrix m →
  i ∈ rr → j ∈ cc → entry m' i j = Some value.
Proof.
  unfold set_region. destruct (decide _) as [[Hrr Hcc]|]; [|done].
  intros [= <-] Hwf Hi Hj. unfold entry. simpl.
  rewrite Forall_forall in Hrr. rewrite Forall_forall in Hcc.
  specialize (Hrr i Hi). specialize (Hcc j Hj).
  rewrite decide_True by done.
  apply lookup_fill_in.
  - apply elem_of_region. eauto.
  - unfold wf_matrix, numel in Hwf. rewrite Hwf. nia.
Qed.

(** Every other entry keeps its value. *)
Lemma set_region_outside m rr cc value m' i j :
  set_region m rr cc value = Some m' →
  i < rows m → ¬ (i ∈ rr ∧ j ∈ cc) → entry m' i j = entry m i j.
Proof.
  unfold set_region. destruct (decide _) as [[Hrr Hcc]|]; [|done].
  intros [= <-] Hi Hout. unfold entry. simpl.
  case_decide; [|done]. apply lookup_fill_out.
  rewrite elem_of_region. intros (i' & j' & Hi' & Hj' & Heq).
  rewrite Forall_forall in Hrr. specialize (Hrr i' Hi').
  assert (i = i' ∧ j = j') as [-> ->]; [|by apply Hout].
  assert (j = j') as ->; [|lia].
  destruct (decide (j < j')); [nia|]. destruct (decide (j' < j)); [nia|]. lia.
Qed.
End RegionFacts.

(** ** setVariableBounds *)

Section BoundsTheorems.
Context {Var double sym Problem info NlpFunction : Type}.
Context (var_int : Var → Z) `{!Inj (=) (=) var_int}.
Context (infinity : double) (dneg : double → double).
Context (isSet : Bounds double → bool).
Abbreviation BEvent :=
  (Event (Var:=Var) (double:=double) (sym:=sym) (info:=info)
         (NlpFunction:=NlpFunction)).
Implicit Types w : World (Transcription Var double sym Problem) BEvent.

Lemma Variables_touch_present {A} (vars : Variables Var (Matrix A)) key m :
  Variables_at var_int vars key = Some m → Variables_touch var_int vars key = vars.
Proof using Type. intros Hat. unfold Variables_touch. by rewrite Hat. Qed.

Lemma Variables_at_touch {A} (vars : Variables Var (Matrix A)) key :
  Variables_at var_int (Variables_touch var_int vars key) key
  = Some (block_at var_int vars key).
Proof using Type.
  unfold Variables_touch, block_at.
  destruct (Variables_at var_int vars key) eqn:Hat; simpl; [done|].
  by rewrite var_eqb_refl.
Qed.

(** Writing a region of the lower-bound block of a variable that has
    one. *)
Lemma assign_lower_run w var rr cc value (m m' : Matrix double) :
  Variables_at var_int (m_lowerBounds (self w)) var = Some m →
  set_region m rr cc value = Some m' →
  assign_region (info:=info) (NlpFunction:=NlpFunction) var_int
    m_lowerBounds set_m_lowerBounds var rr cc value w
  = (Some (),
     mkWorld (set_m_lowerBounds
                (Variables_set var_int (m_lowerBounds (self w)) var m') (self w))
       (trace w)).
Proof using Type.
  intros Hat Hset. unfold assign_region, bind, update, const_call, try. simpl.
  rewrite (Variables_touch_present _ _ _ Hat), Hat, Hset. done.
Qed.

Lemma assign_upper_run w var rr cc value (m m' : Matrix double) :
  Variables_at var_int (m_upperBounds (self w)) var = Some m →
  set_region m rr cc value = Some m' →
  assign_region (info:=info) (NlpFunction:=NlpFunction) var_int
    m_upperBounds set_m_upperBounds var rr cc value w
  = (Some (),
     mkWorld (set_m_upperBounds
                (Variables_set var_int (m_upperBounds (self w)) var m') (self w))
       (trace w)).
Proof using Type.
  intros Hat Hset. unfold assign_region, bind, update, const_call, try. simpl.
  rewrite (Variables_touch_present _ _ _ Hat), Hat, Hset. done.
Qed.

(** C4.  For a variable that has a block in both bound maps and a
    selection of rows and columns inside them, [setVariableBounds]
    returns normally; afterwards every selected entry of the lower-bound
    block is minus infinity and every selected entry of the upper-bound
    block is plus infinity when the bounds are not set, and they are the
    lower and the upper value of the bounds when they are set.  The
    entries that are not selected keep their values. *)
Theorem setVariableBounds_writes_region w var rowIndices columnIndices bounds
    (lo up : Matrix double) :
  Variables_at var_int (m_lowerBounds (self w)) var = Some lo →
  Variables_at var_int (m_upperBounds (self w)) var = Some up →
  wf_matrix lo → wf_matrix up →
  Forall (λ i, i < rows lo ∧ i < rows up) rowIndices →
  Forall (λ j, j < columns lo ∧ j < columns up) columnIndices →
  ∃ w' lo' up',
    setVariableBounds (info:=info) (NlpFunction:=NlpFunction) var_int
      infinity dneg isSet var rowIndices columnIndices bounds w = (Some (), w') ∧
    Variables_at var_int (m_lowerBounds (self w')) var = Some lo' ∧
    Variables_at var_int (m_upperBounds (self w')) var = Some up' ∧
    (∀ i j, i ∈ rowIndices → j ∈ columnIndices →
       entry lo' i j
       = Some (if isSet bounds then lower bounds else dneg infinity) ∧
       entry up' i j
       = Some (if isSet bounds then upper bounds else infinity)) ∧
    (∀ i j, i < rows lo → i < rows up →
       ¬ (i ∈ rowIndices ∧ j ∈ columnIndices) →
       entry lo' i j = entry lo i j ∧ entry up' i j = entry up i j).
Proof using Type*.
  intros Hlo Hup Hwflo Hwfup Hrr Hcc.
  apply Forall_and in Hrr as [Hrlo Hrup]. apply Forall_and in Hcc as [Hclo Hcup].
  set (vlo := if isSet bounds then lower bounds else dneg infinity).
  set (vup := if isSet bounds then upper bounds else infinity).
  destruct (set_region_Some lo rowIndices columnIndices vlo Hrlo Hclo)
    as (lo' & Hsetlo & _).
  destruct (set_region_Some up rowIndices columnIndices vup Hrup Hcup)
    as (up' & Hsetup & _).
  eexists _, lo', up'. split_and!.
  - unfold setVariableBounds, bind. subst vlo vup.
    destruct (isSet bounds).
    + rewrite (assign_lower_run w _ _ _ _ lo lo') by done.
      by rewrite (assign_upper_run _ _ _ _ _ up up') by done.
    + rewrite (assign_lower_run w _ _ _ _ lo lo') by done.
      by rewrite (assign_upper_run _ _ _ _ _ up up') by done.
  - simpl. by rewrite Variables_at_set, var_eqb_refl.
  - simpl. by rewrite Variables_at_set, var_eqb_refl.
  - intros i j Hi Hj. split.
    + by apply (set_region_inside lo rowIndices columnIndices).
    + by apply (set_region_inside up rowIndices columnIndices).
  - intros i j Hilo Hiup Hout. split.
    + by apply (set_region_outside lo rowIndices columnIndices vlo).
    + by apply (set_region_outside up rowIndices columnIndices vup).
Qed.

(** Whether a region assignment throws is decided by the selection and
    the shape of the block, never by the value written. *)
Lemma set_region_is_Some (m : Matrix double) rr cc (a : double) :
  is_Some (set_region m rr cc a)
  ↔ Forall (λ i, i < rows m) rr ∧ Forall (λ j, j < columns m) cc.
Proof using Type.
  unfold set_region. case_decide; [by eauto|].
  split; [by intros [? ?]|done].
Qed.

(** A region assignment on a bound map, run to its end. *)
Lemma assign_lower_result w var rr cc value :
  assign_region (info:=info) (NlpFunction:=NlpFunction) var_int
    m_lowerBounds set_m_lowerBounds var rr cc value w
  = let touched := Variables_touch var_int (m_lowerBounds (self w)) var in
    match set_region (block_at var_int (m_lowerBounds (self w)) var) rr cc value with
    | Some m' =>
        (Some (),
         mkWorld (set_m_lowerBounds (Variables_set var_int touched var m') (self w))
           (trace w))
    | None => (None, mkWorld (set_m_lowerBounds touched (self w)) (trace w))
    end.
Proof using Type.
  unfold assign_region, bind, update, const_call, try. simpl.
  rewrite Variables_at_touch. by destruct (set_region _ _ _ _).
Qed.

Lemma assign_upper_result w var rr cc value :
  assign_region (info:=info) (NlpFunction:=NlpFunction) var_int
    m_upperBounds set_m_upperBounds var rr cc value w
  = let touched := Variables_touch var_int (m_upperBounds (self w)) var in
    match set_region (block_at var_int (m_upperBounds (self w)) var) rr cc value with
    | Some m' =>
        (Some (),
         mkWorld (set_m_upperBounds (Variables_set var_int touched var m') (self w))
           (trace w))
    | None => (None, mkWorld (set_m_upperBounds touched (self w)) (trace w))
    end.
Proof using Type.
  unfold assign_region, bind, update, const_call, try. simpl.
  rewrite Variables_at_touch. by destruct (set_region _ _ _ _).
Qed.

Lemma setVariableBounds_values w var rr cc bounds :
  setVariableBounds (info:=info) (NlpFunction:=NlpFunction) var_int
    infinity dneg isSet var rr cc bounds w
  = bind
      (assign_region var_int m_lowerBounds set_m_lowerBounds var rr cc
         (if isSet bounds then lower bounds else dneg infinity))
      (λ _, assign_region var_int m_upperBounds set_m_upperBounds var rr cc
              (if isSet bounds then upper bounds else infinity)) w.
Proof using Type. unfold setVariableBounds. by destruct (isSet bounds). Qed.

(** Whether [setVariableBounds] throws is decided by the selection and
    the shapes of the two blocks, never by the bounds it is given. *)
Lemma setVariableBounds_is_Some w var rr cc bounds :
  is_Some (setVariableBounds (info:=info) (NlpFunction:=NlpFunction) var_int
             infinity dneg isSet var rr cc bounds w).1
  ↔ (Forall (λ i, i < rows (block_at var_int (m_lowerBounds (self w)) var)) rr ∧
     Forall (λ j, j < columns (block_at var_int (m_lowerBounds (self w)) var)) cc) ∧
    (Forall (λ i, i < rows (block_at var_int (m_upperBounds (self w)) var)) rr ∧
     Forall (λ j, j < columns (block_at var_int (m_upperBounds (self w)) var)) cc).
Proof using Type.
  rewrite setVariableBounds_values. unfold bind.
  rewrite assign_lower_result. cbv zeta.
  pose proof (set_region_is_Some
                (block_at var_int (m_lowerBounds (self w)) var) rr cc
                (if isSet bounds then lower bounds else dneg infinity)) as Hlo.
  pose proof (set_region_is_Some
                (block_at var_int (m_upperBounds (self w)) var) rr cc
                (if isSet bounds then upper bounds else infinity)) as Hup.
  destruct (set_region _ _ _ _) as [lo'|].
  - rewrite assign_upper_result. cbv zeta. simpl.
    destruct (set_region _ _ _ _) as [up'|]; simpl.
    + split; [intros _|by eauto]. split; [apply Hlo|apply Hup]; by eauto.
    + split; [by intros [? ?]|]. intros [_ Hsome%Hup]. by destruct Hsome.
  - simpl. split; [by intros [? ?]|]. intros [Hsome%Hlo _]. by destruct Hsome.
Qed.
End BoundsTheorems.

(** ** solve *)

Section SolveTheorems.
Context {Var double sym Problem info NlpFunction : Type}.
Context (var_int : Var → Z) (initial_time final_time : Var).
Context `{Arith double}.
Context (resample : Iterate Var double info → Matrix double
                    → option (Iterate Var double info)).
Context (createIterate : Problem → Solution Var double info).
Context (nlpsol : string → string → gmap string (Matrix sym) → Dict double
                  → option NlpFunction).
Context (nlpFunc_call : NlpFunction → gmap string (Matrix double)
                        → option (gmap string (Matrix double) * Dict double)).
Abbreviation SEvent :=
  (Event (Var:=Var) (double:=double) (sym:=sym) (info:=info)
         (NlpFunction:=NlpFunction)).
Abbreviation run_solve_with call :=
  (solve var_int initial_time final_time resample createIterate nlpsol call).
Abbreviation the_solve := (run_solve_with nlpFunc_call).
Implicit Types t : Transcription Var double sym Problem.
Implicit Types w : World (Transcription Var double sym Problem) SEvent.

(** [solve] never assigns to a data member. *)
Lemma solve_self guessOrig w : self (the_solve guessOrig w).2 = self w.
Proof using Type. run_solve; done. Qed.

(** The outside calls of a run do not depend on the calls made before
    it, and neither does its outcome. *)
Lemma solve_trace guessOrig w :
  the_solve guessOrig w
  = ((the_solve guessOrig (mkWorld (self w) [])).1,
     mkWorld (self w)
       (trace w ++ trace (the_solve guessOrig (mkWorld (self w) [])).2)).
Proof using Type.
  destruct w as [t events]. run_solve; rewrite ?app_nil_r, <- ?app_assoc; done.
Qed.

(** C9.  [solve] leaves the object as it found it, with its variable
    store, grid, bound matrices, objective and constraint lists: after
    one call and after a second one the object is the one the first call
    started from, and the second call returns what it would have returned
    had the first one never run, making the outside calls it would have
    made. *)
Theorem solve_leaves_instance_unchanged t guess1 guess2 :
  let first :=
    solve var_int initial_time final_time resample createIterate nlpsol
      nlpFunc_call guess1 (mkWorld t []) in
  let second :=
    solve var_int initial_time final_time resample createIterate nlpsol
      nlpFunc_call guess2 first.2 in
  let alone :=
    solve var_int initial_time final_time resample createIterate nlpsol
      nlpFunc_call guess2 (mkWorld t []) in
  self first.2 = t ∧
  self second.2 = t ∧
  second.1 = alone.1 ∧
  trace second.2 = trace first.2 ++ trace alone.2.
Proof using Type.
  intros first second alone.
  assert (self first.2 = t) as Hfirst by apply solve_self.
  split_and!; [done|..]; subst second alone; rewrite solve_trace, Hfirst; done.
Qed.

(** No retries: a run evaluates the solver at most once. *)
Lemma solve_calls_at_most_once t guessOrig :
  length (solver_calls (trace (the_solve guessOrig (mkWorld t [])).2)) ≤ 1.
Proof using Type. run_solve; lia. Qed.

(** A run that returns has evaluated the solver once; the variables of its
    solution are what [expand] made of the entry "x" of the result of that
    evaluation (with [operator[]] run on the two time keys), and its
    statistics are the ones that evaluation reported. *)
Lemma solve_returns_expanded_result t guessOrig sol :
  (the_solve guessOrig (mkWorld t [])).1 = Some sol →
  ∃ nlpFunc args result xres expanded,
    solver_calls (trace (the_solve guessOrig (mkWorld t [])).2) = [args] ∧
    EvCall nlpFunc args ∈ trace (the_solve guessOrig (mkWorld t [])).2 ∧
    nlpFunc_call nlpFunc args = Some (result, stats sol) ∧
    result !! "x" = Some xres ∧
    expand var_int (m_vars t) xres = Some expanded ∧
    variables (iterate sol)
    = Variables_touch var_int (Variables_touch var_int expanded initial_time)
        final_time.
Proof using Type.
  intros Hsol. run_solve.
  match goal with
  | Hcall : nlpFunc_call ?f ?args = Some ?p |- _ =>
      exists f, args, p.1; destruct p
  end.
  eexists _, _. split_and!; [done| |done..].
  do 2 apply list_elem_of_further. apply list_elem_of_here.
Qed.

(** What the statistics say does not reach any decision of [solve]. *)
Lemma solve_blind_to_stats t guessOrig (restat : Dict double → Dict double) :
  (run_solve_with (λ f a, prod_map id restat <$> nlpFunc_call f a)
     guessOrig (mkWorld t [])).1
  = (λ sol, mkSolution (iterate sol) (restat (stats sol)))
      <$> (the_solve guessOrig (mkWorld t [])).1.
Proof using Type.
  unfold solve, bind, try, const_call, member, outside, ret. simpl.
  repeat (match goal with
          | |- context [nlpFunc_call ?f ?args] =>
              destruct (nlpFunc_call f args) as [[??]|] eqn:?
          | _ => case_match
          end; simplify_eq/=; try done).
Qed.

Lemma solve_options_other (solver : Solver double) key :
  key ≠ getOptimSolver solver →
  solve_options solver !! key = getPluginOptions solver !! key.
Proof using Type.
  intros Hne. unfold solve_options. case_bool_decide; [|done].
  by rewrite lookup_insert_ne.
Qed.

Lemma solve_options_nested (solver : Solver double) :
  getPluginOptions solver ≠ ∅ →
  solve_options solver !! getOptimSolver solver
  = Some (GT_dict (getSolverOptions solver)).
Proof using Type.
  intros Hne. unfold solve_options.
  rewrite bool_decide_true by (by rewrite map_size_non_empty_iff).
  apply lookup_insert_eq.
Qed.

(** The guard of [solve] looks at the plugin options: without any, nothing
    is added, whatever the solver options are. *)
Lemma solve_options_no_plugin_options (solver : Solver double) :
  getPluginOptions solver = ∅ → solve_options solver = ∅.
Proof using Type.
  intros Hempty. unfold solve_options. rewrite Hempty.
  case_bool_decide as Hsize; [|done]. by rewrite map_size_empty in Hsize.
Qed.

Lemma solve_passes_solve_options t guessOrig options :
  options ∈ solver_options (trace (the_solve guessOrig (mkWorld t [])).2) →
  options = solve_options (m_solver t).
Proof using Type.
  intros Hin. run_solve;
    solve [by apply elem_of_nil in Hin | by apply list_elem_of_singleton in Hin].
Qed.

End SolveTheorems.

(** ** The solver stage of solve *)

Section SolverStage.
Context {Var double sym Problem info NlpFunction : Type}.
Context (var_int : Var → Z) {var_int_inj : Inj (=) (=) var_int}.
Context (initial_time final_time : Var).
Context `{Arith double} (infinity : double) (dneg : double → double).
Context (isSet : Bounds double → bool).
Context (resample : Iterate Var double info → Matrix double
                    → option (Iterate Var double info)).
Context (createIterate : Problem → Solution Var double info).
Context (nlpsol : string → string → gmap string (Matrix sym) → Dict double
                  → option NlpFunction).
Context (nlpFunc_call : NlpFunction → gmap string (Matrix double)
                        → option (gmap string (Matrix double) * Dict double)).
Abbreviation UEvent :=
  (Event (Var:=Var) (double:=double) (sym:=sym) (info:=info)
         (NlpFunction:=NlpFunction)).
Abbreviation solve_on t guessOrig :=
  (solve var_int initial_time final_time resample createIterate nlpsol
     nlpFunc_call guessOrig (mkWorld t [])).
Implicit Types t : Transcription Var double sym Problem.

Lemma solve_call_bounds t guessOrig args :
  args ∈ solver_calls (trace (solve_on t guessOrig).2) →
  args !! "lbx" = flatten var_int (m_lowerBounds t) ∧
  args !! "ubx" = flatten var_int (m_upperBounds t).
Proof using Type.
  intros Hin. run_solve;
    try (by apply elem_of_nil in Hin);
    apply list_elem_of_singleton in Hin as ->; by simplify_map_eq.
Qed.

Lemma solve_calls_whatever_bounds t guessOrig lb ub :
  length (solver_calls
            (trace (solve_on (set_m_lowerBounds lb (set_m_upperBounds ub t))
                      guessOrig).2))
  = length (solver_calls (trace (solve_on t guessOrig).2)).
Proof using var_int_inj.
  unfold solve, bind, try, const_call, member, outside, ret, createTimes.
  simpl. rewrite !flatten_eq by done. simpl.
  repeat (case_match; simplify_eq/=; try done).
Qed.

(** Once the solver object exists, nothing stands between [solve] and its
    evaluation: flattening never throws. *)
Lemma solve_calls_once_constructed t guessOrig name solver nlp options nlpFunc :
  EvNlpsol name solver nlp options ∈ trace (solve_on t guessOrig).2 →
  nlpsol name solver nlp options = Some nlpFunc →
  length (solver_calls (trace (solve_on t guessOrig).2)) = 1.
Proof using var_int_inj.
  intros Hin Hsolver. run_solve;
    repeat match goal with
           | Hnone : flatten _ _ = None |- _ =>
               rewrite flatten_eq in Hnone by done; discriminate Hnone
           | Hev : _ ∈ [] |- _ => by apply elem_of_nil in Hev
           | Hev : _ ∈ _ :: _ |- _ => apply elem_of_cons in Hev as [Hev|Hev]
           end; simplify_eq; done.
Qed.

(** C6, amended.  A call to [solve] evaluates the external solver at most
    once: it never tries again.  It evaluates it exactly once as soon as
    the solver object has been built, and so in every call that returns.
    The solution of a call that returns is made of that one evaluation:
    its variables are the entry "x" of the result, expanded against the
    store, and its statistics are the ones the evaluation reported.  What
    the statistics say has no influence on [solve]: were the solver to
    report anything else for the same result, [solve] would return the
    same solution with those other statistics attached, so a run that did
    not converge comes back as a solution like any other. *)
Theorem solve_calls_solver_once t guessOrig :
  length (solver_calls (trace (solve_on t guessOrig).2)) ≤ 1 ∧
  (∀ name solver nlp options nlpFunc,
     EvNlpsol name solver nlp options ∈ trace (solve_on t guessOrig).2 →
     nlpsol name solver nlp options = Some nlpFunc →
     length (solver_calls (trace (solve_on t guessOrig).2)) = 1) ∧
  (∀ sol, (solve_on t guessOrig).1 = Some sol →
     ∃ nlpFunc args result xres expanded,
       solver_calls (trace (solve_on t guessOrig).2) = [args] ∧
       EvCall nlpFunc args ∈ trace (solve_on t guessOrig).2 ∧
       nlpFunc_call nlpFunc args = Some (result, stats sol) ∧
       result !! "x" = Some xres ∧
       expand var_int (m_vars t) xres = Some expanded ∧
       variables (iterate sol)
       = Variables_touch var_int
           (Variables_touch var_int expanded initial_time) final_time) ∧
  (∀ restat : Dict double → Dict double,
     (solve var_int initial_time final_time resample createIterate nlpsol
        (λ f a, prod_map id restat <$> nlpFunc_call f a) guessOrig
        (mkWorld t [])).1
     = (λ sol, mkSolution (iterate sol) (restat (stats sol)))
         <$> (solve_on t guessOrig).1).
Proof using var_int_inj.
  split_and!.
  - apply solve_calls_at_most_once.
  - apply solve_calls_once_constructed.
  - apply solve_returns_expanded_result.
  - apply solve_blind_to_stats.
Qed.

(** C5.  Nothing compares a lower bound with an upper bound.  Whether
    [setVariableBounds] returns normally does not depend on the bounds
    it is given; the lower and upper bound vectors of every solver
    evaluation that [solve] makes are the flattened bound maps as they
    stand; and the solver is evaluated as often whatever the bound maps
    hold. *)
Theorem bounds_never_validated :
  (∀ (w : World (Transcription Var double sym Problem) UEvent) var
      rowIndices columnIndices (bounds bounds' : Bounds double),
     is_Some (setVariableBounds (info:=info) (NlpFunction:=NlpFunction)
                var_int infinity dneg isSet var rowIndices columnIndices
                bounds w).1 →
     is_Some (setVariableBounds (info:=info) (NlpFunction:=NlpFunction)
                var_int infinity dneg isSet var rowIndices columnIndices
                bounds' w).1) ∧
  (∀ t guessOrig args,
     args ∈ solver_calls (trace (solve_on t guessOrig).2) →
     args !! "lbx" = flatten var_int (m_lowerBounds t) ∧
     args !! "ubx" = flatten var_int (m_upperBounds t)) ∧
  (∀ t guessOrig lb ub,
     length (solver_calls
               (trace (solve_on (set_m_lowerBounds lb (set_m_upperBounds ub t))
                         guessOrig).2))
     = length (solver_calls (trace (solve_on t guessOrig).2))).
Proof using Type*.
  split_and!.
  - intros w var rr cc bounds bounds'.
    by rewrite !setVariableBounds_is_Some.
  - apply solve_call_bounds.
  - apply solve_calls_whatever_bounds.
Qed.
End SolverStage.

(** ** The instance *)

Global Instance ex_var_int_inj : Inj (=) (=) ex_var_int.
Proof. intros [] []; simpl; intros; done. Qed.

Lemma ex_times_comm (a b : ExNum) : times_op a b = times_op b a.
Proof.
  destruct a as [x|s|], b as [y|s'|]; simpl; try done.
  - by rewrite Z.mul_comm.
  - by rewrite xorb_comm.
Qed.

Ltac by_decide :=
  unfold keys; simpl; apply (bool_decide_unpack _); vm_compute; exact I.

Lemma ex_solve_run :
  ex_solve ex_guess (mkWorld ex_transcription [])
  = (Some ex_solution,
     mkWorld ex_transcription
       (trace (ex_solve ex_guess (mkWorld ex_transcription [])).2)).
Proof. vm_compute. reflexivity. Qed.

(** The blocks of the guess in the order of the identifiers' integers:
    initial time, final time, states. *)
Example ex_flatten_guess :
  flatten ex_var_int (variables ex_guess)
  = Some (mkMatrix 4 1 [Fin 2; Fin 4; Fin 7; Fin 8]).
Proof. reflexivity. Qed.

Example ex_flatten_reordered :
  flatten ex_var_int ex_guess_reordered
  = Some (mkMatrix 4 1 [Fin 2; Fin 4; Fin 7; Fin 8]).
Proof. reflexivity. Qed.

(** The first four entries of the long vector are cut into the blocks of
    the store; the last two are left over. *)
Example ex_expand_long_vector :
  expand ex_var_int (m_vars ex_transcription) ex_long_vector
  = Some [(ex_states, mkMatrix 1 2 [Fin 12; Fin 13]);
          (ex_final_time, mkMatrix 1 1 [Fin 11]);
          (ex_initial_time, mkMatrix 1 1 [Fin 10])].
Proof. reflexivity. Qed.

(** A vector that is too short makes [expand] throw. *)
Example ex_expand_short_vector :
  expand ex_var_int (m_vars ex_transcription) (mkMatrix 3 1 [Fin 10; Fin 11; Fin 12])
  = None.
Proof. reflexivity. Qed.

Lemma flatten_ignores_iteration_order_witness :
  ∃ v,
    flatten ex_var_int (variables ex_guess) = Some v ∧
    flatten ex_var_int ex_guess_reordered = Some v ∧
    StronglySorted (var_le ex_var_int)
      (getSortedVarKeys ex_var_int (variables ex_guess)) ∧
    getSortedVarKeys ex_var_int ex_guess_reordered
    = getSortedVarKeys ex_var_int (variables ex_guess).
Proof.
  apply (flatten_ignores_iteration_order ex_var_int).
  - by_decide.
  - by_decide.
  - intros []; reflexivity.
Defined.


Lemma setVariableBounds_writes_region_witness :
  ∃ w' lo' up',
    setVariableBounds (info:=unit) (NlpFunction:=unit) ex_var_int
      (Inf false) ex_neg ex_isSet ex_states [0] [0; 1] ex_unset
      (mkWorld ex_transcription []) = (Some (), w') ∧
    Variables_at ex_var_int (m_lowerBounds (self w')) ex_states = Some lo' ∧
    Variables_at ex_var_int (m_upperBounds (self w')) ex_states = Some up' ∧
    (∀ i j, i ∈ [0] → j ∈ [0; 1] →
       entry lo' i j
       = Some (if ex_isSet ex_unset then lower ex_unset else ex_neg (Inf false)) ∧
       entry up' i j
       = Some (if ex_isSet ex_unset then upper ex_unset else Inf false)) ∧
    (∀ i j, i < 1 → i < 1 → ¬ (i ∈ [0] ∧ j ∈ [0; 1]) →
       entry lo' i j = entry (mkMatrix 1 2 [Fin 5; Fin 5]) i j ∧
       entry up' i j = entry (mkMatrix 1 2 [Fin 3; Fin 3]) i j).
Proof.
  apply (setVariableBounds_writes_region ex_var_int (Inf false) ex_neg ex_isSet
           (mkWorld ex_transcription []) ex_states [0] [0; 1] ex_unset
           (mkMatrix 1 2 [Fin 5; Fin 5]) (mkMatrix 1 2 [Fin 3; Fin 3])).
  - reflexivity.
  - reflexivity.
  - reflexivity.
  - reflexivity.
  - repeat constructor.
  - repeat constructor.
Defined.

Lemma bounds_never_validated_witness :
  (is_Some (setVariableBounds (info:=unit) (NlpFunction:=unit) ex_var_int
              (Inf false) ex_neg ex_isSet ex_states [0] [0; 1]
              (mkBounds (Fin 1) (Fin 2)) (mkWorld ex_transcription [])).1 →
   is_Some (setVariableBounds (info:=unit) (NlpFunction:=unit) ex_var_int
              (Inf false) ex_neg ex_isSet ex_states [0] [0; 1]
              (mkBounds (Fin 5) (Fin 3)) (mkWorld ex_transcription [])).1) ∧
  (∀ args,
     args ∈ solver_calls (trace (ex_solve ex_guess (mkWorld ex_transcription [])).2) →
     args !! "lbx" = flatten ex_var_int (m_lowerBounds ex_transcription) ∧
     args !! "ubx" = flatten ex_var_int (m_upperBounds ex_transcription)) ∧
  (∀ lb ub,
     length (solver_calls
               (trace (ex_solve ex_guess
                         (mkWorld (set_m_lowerBounds lb
                                     (set_m_upperBounds ub ex_transcription))
                            [])).2))
     = length (solver_calls
                 (trace (ex_solve ex_guess (mkWorld ex_transcription [])).2))).
Proof.
  destruct (bounds_never_validated (sym:=unit) (Problem:=unit) (info:=unit)
              ex_var_int ex_initial_time ex_final_time (Inf false) ex_neg
              ex_isSet ex_resample ex_createIterate ex_nlpsol ex_nlpFunc_call)
    as (Hset & Hargs & Hcalls).
  split_and!; [apply Hset|apply Hargs|apply Hcalls].
Defined.

Lemma solve_calls_solver_once_witness :
  length (solver_calls (trace (ex_solve ex_guess (mkWorld ex_transcription [])).2)) ≤ 1 ∧
  (∀ name solver nlp options nlpFunc,
     EvNlpsol name solver nlp options
     ∈ trace (ex_solve ex_guess (mkWorld ex_transcription [])).2 →
     ex_nlpsol name solver nlp options = Some nlpFunc →
     length (solver_calls
               (trace (ex_solve ex_guess (mkWorld ex_transcription [])).2)) = 1) ∧
  (∃ nlpFunc args result xres expanded,
     solver_calls (trace (ex_solve ex_guess (mkWorld ex_transcription [])).2)
     = [args] ∧
     EvCall nlpFunc args ∈ trace (ex_solve ex_guess (mkWorld ex_transcription [])).2 ∧
     ex_nlpFunc_call nlpFunc args = Some (result, stats ex_solution) ∧
     result !! "x" = Some xres ∧
     expand ex_var_int (m_vars ex_transcription) xres = Some expanded ∧
     variables (iterate ex_solution)
     = Variables_touch ex_var_int
         (Variables_touch ex_var_int expanded ex_initial_time) ex_final_time) ∧
  (∀ restat : Dict ExNum → Dict ExNum,
     (solve ex_var_int ex_initial_time ex_final_time ex_resample ex_createIterate
        ex_nlpsol (λ f a, prod_map id restat <$> ex_nlpFunc_call f a) ex_guess
        (mkWorld ex_transcription [])).1
     = (λ sol, mkSolution (iterate sol) (restat (stats sol)))
         <$> (ex_solve ex_guess (mkWorld ex_transcription [])).1).
Proof.
  destruct (solve_calls_solver_once ex_var_int ex_initial_time ex_final_time
              ex_resample ex_createIterate ex_nlpsol ex_nlpFunc_call
              ex_transcription ex_guess)
    as (Hmost & Hbuilt & Hreturn & Hstats).
  split_and!; [exact Hmost|exact Hbuilt| |exact Hstats].
  apply Hreturn. vm_compute. reflexivity.
Defined.

(** * Further properties *)

(** ** The codec beyond the round trip *)

Section CodecExtras.
Context {Var : Type} (var_int : Var → Z) {var_int_inj : Inj (=) (=) var_int}.
Context {S S' A : Type}.
Implicit Types m_vars : Variables Var (Matrix S).
Implicit Types vals : Variables Var (Matrix A).

(** A vector that ends before the last block does makes the loop throw. *)
Lemma expand_loop_short m_vars (x : Matrix A) sorted : ∀ offset out,
  offset ≤ numel x →
  numel x < offset + sum_list (block_numel var_int m_vars <$> sorted) →
  expand_loop var_int m_vars x sorted offset out = None.
Proof using Type.
  induction sorted as [|key rest IH]; intros offset out Hoff Hshort.
  - csimpl in Hshort. lia.
  - csimpl in Hshort. simpl.
    destruct (Variables_at var_int m_vars key) as [value|] eqn:Hat; [|done].
    assert (block_numel var_int m_vars key = numel value) as Hkey.
    { unfold block_numel. by rewrite Hat. }
    simpl. unfold slice. case_decide; [|done]. simpl.
    unfold reshape. rewrite decide_True by (unfold numel; simpl; lia). simpl.
    apply IH; lia.
Qed.

Lemma expand_Some_long m_vars (x : Matrix A) out :
  NoDup (keys m_vars) →
  expand var_int m_vars x = Some out → total_numel m_vars ≤ numel x.
Proof using var_int_inj.
  intros Hnd Hout. destruct (decide (total_numel m_vars ≤ numel x)); [done|].
  unfold expand in Hout. rewrite expand_loop_short in Hout; [done|lia|].
  rewrite (sum_block_numel_sorted var_int) by done. lia.
Qed.

(** X1.  [expand] returns exactly when the vector has at least as many
    entries as the blocks of the store together; a shorter vector makes it
    throw. *)
Theorem expand_succeeds_iff_long_enough m_vars (x : Matrix A) :
  NoDup (keys m_vars) →
  is_Some (expand var_int m_vars x) ↔ total_numel m_vars ≤ numel x.
Proof using var_int_inj.
  intros Hnd. split.
  - intros [out Hout]. by eapply expand_Some_long.
  - intros Hlen. destruct (expand_spec var_int m_vars x Hnd Hlen) as (out & -> & _).
    by eexists.
Qed.

Lemma offset_before_same_shape m_vars vals sorted key :
  same_shape var_int m_vars vals →
  offset_before var_int vals sorted key = offset_before var_int m_vars sorted key.
Proof using Type.
  intros Hshape. induction sorted as [|k rest IH]; [done|]. simpl.
  destruct (var_eqb var_int k key); [done|].
  by rewrite IH, (same_shape_block_numel var_int m_vars vals).
Qed.

(** Where a block sits in the concatenation of the blocks. *)
Lemma block_in_concat vals sorted key :
  wf_blocks vals → key ∈ sorted →
  take (block_numel var_int vals key)
    (drop (offset_before var_int vals sorted key)
       (concat (elems <$> (block_at var_int vals <$> sorted))))
  = elems (block_at var_int vals key).
Proof using var_int_inj.
  intros Hwf. induction sorted as [|k rest IH]; [by intros ?%elem_of_nil|].
  intros Hin. csimpl.
  pose proof (wf_block_at var_int vals k Hwf) as Hk. unfold wf_matrix in Hk.
  destruct (var_eqb var_int k key) eqn:E.
  - apply var_eqb_eq in E as ->; [|done]. rewrite drop_0, block_numel_eq.
    rewrite <- Hk. by rewrite take_app_length.
  - apply var_eqb_neq in E; [|done].
    apply elem_of_cons in Hin as [->|Hin]; [done|].
    rewrite (block_numel_eq var_int vals k), <- Hk.
    rewrite drop_app_add. by apply IH.
Qed.

(** X2.  The block of a key sits in the flattened vector at the offset that
    the store assigns to the key: the guess, the bound vectors and the
    decision vector, flattened from maps of the same shape, line up entry
    by entry. *)
Theorem flatten_block_position m_vars vals key block :
  NoDup (keys m_vars) →
  NoDup (keys vals) →
  same_shape var_int m_vars vals →
  wf_blocks vals →
  Variables_at var_int vals key = Some block →
  ∃ v,
    flatten var_int vals = Some v ∧
    numel v = total_numel m_vars ∧
    take (numel block) (drop (sorted_offset var_int m_vars key) (elems v))
    = elems block.
Proof using var_int_inj.
  intros Hnd Hnd' Hshape Hwf Hblock.
  pose proof (same_shape_sorted_keys var_int m_vars vals Hnd Hnd' Hshape) as Hsorted.
  eexists. split; [apply flatten_eq; done|]. rewrite Hsorted. split.
  - unfold numel at 1. simpl. rewrite Nat.mul_1_r.
    rewrite <- (sum_block_numel_sorted var_int m_vars) by done.
    rewrite <- list_fmap_compose. f_equal. apply list_fmap_ext.
    intros _ k _. simpl.
    by rewrite <- block_numel_eq, <- (same_shape_block_numel var_int m_vars vals).
  - simpl. unfold sorted_offset.
    rewrite <- (offset_before_same_shape m_vars vals) by done.
    assert (key ∈ getSortedVarKeys var_int m_vars) as Hkey.
    { rewrite <- Hsorted. apply getSortedVarKeys_elem.
      apply (Variables_at_is_Some var_int). by eexists. }
    pose proof (block_in_concat vals _ key Hwf Hkey) as Hpos.
    unfold block_numel, block_at in Hpos. rewrite Hblock in Hpos. done.
Qed.

(** X3.  Expanding what [flatten] made of a map of numeric blocks gives the
    blocks back: under every key the expanded map holds the block the
    flattened map held, and it holds nothing under any other key. *)
Theorem expand_flatten_restores_blocks m_vars vals :
  NoDup (keys m_vars) →
  NoDup (keys vals) →
  same_shape var_int m_vars vals →
  wf_blocks vals →
  ∃ v out,
    flatten var_int vals = Some v ∧
    expand var_int m_vars v = Some out ∧
    ∀ key, Variables_at var_int out key = Variables_at var_int vals key.
Proof using var_int_inj.
  intros Hnd Hnd' Hshape Hwf.
  pose proof (same_shape_sorted_keys var_int m_vars vals Hnd Hnd' Hshape) as Hsorted.
  set (v := veccat (block_at var_int vals <$> getSortedVarKeys var_int m_vars)).
  assert (flatten var_int vals = Some v) as Hflat.
  { rewrite flatten_eq by done. by rewrite Hsorted. }
  assert (numel v = total_numel m_vars) as Hnumel.
  { unfold numel, v. simpl. rewrite Nat.mul_1_r.
    rewrite <- (sum_block_numel_sorted var_int m_vars) by done.
    rewrite <- list_fmap_compose. f_equal. apply list_fmap_ext.
    intros _ k _. simpl.
    by rewrite <- block_numel_eq, <- (same_shape_block_numel var_int m_vars vals). }
  destruct (expand_spec var_int m_vars v Hnd) as (out & Hrun & Hkeys & Hat); [lia|].
  exists v, out. split_and!; [done..|]. intros key.
  destruct (Variables_at var_int vals key) as [block|] eqn:Hblock.
  - assert (key ∈ keys m_vars) as Hkey.
    { apply (Variables_at_is_Some var_int).
      apply (same_shape_is_Some var_int m_vars vals); [done|]. by eexists. }
    rewrite Hat by done. f_equal.
    pose proof (Hshape key) as Hshapes. rewrite Hblock in Hshapes.
    destruct (Variables_at var_int m_vars key) as [value|] eqn:Hvalue;
      [|done]. simpl in Hshapes. injection Hshapes as Hrows Hcolumns.
    unfold expanded_block, block_at, block_numel. rewrite Hvalue. simpl.
    destruct block as [r c es]. simpl in *. subst r c. f_equal.
    assert (key ∈ getSortedVarKeys var_int m_vars) as Hsortedkey
      by (by apply getSortedVarKeys_elem).
    pose proof (block_in_concat vals _ key Hwf Hsortedkey) as Hpos.
    rewrite (offset_before_same_shape m_vars vals) in Hpos by done.
    rewrite <- (same_shape_block_numel var_int m_vars vals) in Hpos by done.
    unfold block_numel, block_at in Hpos. rewrite Hblock, Hvalue in Hpos.
    done.
  - apply (Variables_at_None var_int). rewrite Hkeys.
    apply (Variables_at_None var_int).
    apply eq_None_not_Some. rewrite (same_shape_is_Some var_int m_vars vals) by done.
    rewrite Hblock. by intros [? ?].
Qed.

(** X4.  Flattening what [expand] made of a vector gives the vector back,
    cut off at the size of the store: a column of the first entries of the
    vector, as many as the blocks of the store have together. *)
Theorem flatten_expand_truncates m_vars (x : Matrix A) :
  NoDup (keys m_vars) →
  total_numel m_vars ≤ numel x →
  ∃ out,
    expand var_int m_vars x = Some out ∧
    flatten var_int out
    = Some (mkMatrix (total_numel m_vars) 1 (take (total_numel m_vars) (elems x))).
Proof using var_int_inj.
  intros Hnd Hlen.
  destruct (expand_spec var_int m_vars x Hnd Hlen) as (out & Hrun & Hkeys & Hat).
  exists out. split; [done|]. rewrite flatten_eq by done.
  rewrite (getSortedVarKeys_unique var_int out m_vars Hkeys).
  set (ks := getSortedVarKeys var_int m_vars).
  assert (block_at var_int out <$> ks
          = (λ key, expanded_block var_int m_vars x
                      (0 + offset_before var_int m_vars ks key) key) <$> ks)
    as ->.
  { apply list_fmap_ext. intros _ key Hkey%list_elem_of_lookup_2.
    apply getSortedVarKeys_elem in Hkey. unfold block_at at 1.
    by rewrite Hat by done. }
  f_equal. unfold veccat. f_equal.
  - rewrite <- (sum_block_numel_sorted var_int m_vars) by done.
    rewrite <- list_fmap_compose. f_equal. apply list_fmap_ext.
    intros _ key _. simpl. by rewrite block_numel_eq.
  - rewrite <- list_fmap_compose.
    rewrite <- (sum_block_numel_sorted var_int m_vars) by done. fold ks.
    transitivity (take (sum_list (block_numel var_int m_vars <$> ks))
                    (drop 0 (elems x))); [|by rewrite drop_0].
    rewrite <- (concat_slices var_int m_vars (elems x) ks 0)
      by (by apply getSortedVarKeys_NoDup).
    done.
Qed.

Lemma expand_loop_same_shape m_vars (m_vars' : Variables Var (Matrix S'))
    (x : Matrix A) sorted : ∀ offset out,
  same_shape var_int m_vars m_vars' →
  expand_loop var_int m_vars' x sorted offset out
  = expand_loop var_int m_vars x sorted offset out.
Proof using Type.
  intros offset out Hshape. revert offset out.
  induction sorted as [|key rest IH]; intros offset out; [done|]. simpl.
  pose proof (Hshape key) as Hkey.
  destruct (Variables_at var_int m_vars key) as [a|],
    (Variables_at var_int m_vars' key) as [b|]; simpl in Hkey; try done.
  injection Hkey as Hrows Hcolumns. simpl. unfold numel.
  rewrite Hrows, Hcolumns.
  destruct (slice x _ _); simpl; [|done].
  destruct (reshape _ _ _); simpl; [|done]. apply IH.
Qed.

(** X5.  [expand] reads nothing of the store but its keys and the shapes
    of its blocks: two stores with the same keys and shapes, whatever their
    entries and their iteration orders, expand a vector to the same map. *)
Theorem expand_depends_on_shapes_only m_vars
    (m_vars' : Variables Var (Matrix S')) (x : Matrix A) :
  NoDup (keys m_vars) →
  NoDup (keys m_vars') →
  same_shape var_int m_vars m_vars' →
  expand var_int m_vars' x = expand var_int m_vars x.
Proof using var_int_inj.
  intros Hnd Hnd' Hshape. unfold expand.
  rewrite (expand_loop_same_shape m_vars m_vars') by done. f_equal.
  apply (getSortedVarKeys_unique var_int).
  apply (keys_Permutation_of_lookup var_int); [done..|].
  intros key. specialize (Hshape key).
  rewrite <- !(fmap_is_Some shape). by rewrite Hshape.
Qed.

(** X13.  [getSortedVarKeys] returns every key of the map exactly once, in
    strictly increasing order of the identifiers' integers. *)
Theorem getSortedVarKeys_strictly_increasing vals :
  NoDup (keys vals) →
  getSortedVarKeys var_int vals ≡ₚ keys vals ∧
  NoDup (getSortedVarKeys var_int vals) ∧
  StronglySorted (λ a b, (var_int a < var_int b)%Z) (getSortedVarKeys var_int vals).
Proof using var_int_inj.
  intros Hnd. split; [apply getSortedVarKeys_Permutation|].
  pose proof (getSortedVarKeys_NoDup var_int vals Hnd) as Hnd'.
  split; [done|].
  pose proof (getSortedVarKeys_sorted var_int vals) as Hsorted.
  induction Hsorted as [|k ks Hks IH Hall]; [constructor|].
  apply NoDup_cons in Hnd' as [Hk Hnd']. constructor; [by apply IH|].
  rewrite Forall_forall in Hall. apply Forall_forall. intros k' Hk'.
  specialize (Hall k' Hk'). unfold var_le in Hall.
  destruct (decide (var_int k = var_int k')) as [Heq|Hne]; [|lia].
  apply (inj var_int) in Heq. by subst.
Qed.
End CodecExtras.

(** ** Writing a region twice *)

Section RegionExtras.
Context {A : Type}.

Lemma fill_again (value : A) (positions again : list nat) (l : list A) :
  again ⊆ positions →
  foldr (λ p l, <[p := value]> l)
    (foldr (λ p l, <[p := value]> l) l positions) again
  = foldr (λ p l, <[p := value]> l) l positions.
Proof using Type.
  induction again as [|p rest IH]; [done|]. intros Hsub. simpl.
  rewrite IH by set_solver.
  destruct (decide (p < length l)) as [Hp|Hp].
  - apply list_insert_id, lookup_fill_in; [set_solver|done].
  - apply list_insert_ge. rewrite length_fill. lia.
Qed.

Lemma set_region_again (m m' : Matrix A) rr cc value :
  set_region m rr cc value = Some m' → set_region m' rr cc value = Some m'.
Proof using Type.
  unfold set_region. case_decide; [|done]. intros [= <-]. simpl.
  rewrite decide_True by done. f_equal. f_equal.
  unfold region. simpl. by apply fill_again.
Qed.
End RegionExtras.

(** ** setVariableBounds beyond the region it writes *)

Section BoundsExtras.
Context {Var double sym Problem info NlpFunction : Type}.
Context (var_int : Var → Z) {var_int_inj : Inj (=) (=) var_int}.
Context (infinity : double) (dneg : double → double).
Context (isSet : Bounds double → bool).
Abbreviation XEvent :=
  (Event (Var:=Var) (double:=double) (sym:=sym) (info:=info)
         (NlpFunction:=NlpFunction)).
Implicit Types w : World (Transcription Var double sym Problem) XEvent.

Lemma Variables_at_touch_ne {A} (vars : Variables Var (Matrix A)) var key :
  key ≠ var →
  Variables_at var_int (Variables_touch var_int vars var) key
  = Variables_at var_int vars key.
Proof using var_int_inj.
  intros Hne. unfold Variables_touch.
  destruct (Variables_at var_int vars var); [done|]. simpl.
  assert (var_eqb var_int var key = false) as ->; [|done].
  apply var_eqb_neq; [done|]. by intros ->.
Qed.

Lemma Variables_at_set_ne {T} (vars : Variables Var T) var value key :
  key ≠ var →
  Variables_at var_int (Variables_set var_int vars var value) key
  = Variables_at var_int vars key.
Proof using var_int_inj.
  intros Hne. rewrite Variables_at_set by done.
  assert (var_eqb var_int var key = false) as ->; [|done].
  apply var_eqb_neq; [done|]. by intros ->.
Qed.

(** X6.  [setVariableBounds] touches the two bound maps and nothing else,
    and in them only the entry of the variable it is given, whether it
    returns or throws: the other members of the object, the blocks of every
    other variable and the record of outside calls stay as they were. *)
Theorem setVariableBounds_frame w var rowIndices columnIndices bounds :
  let after :=
    (setVariableBounds (info:=info) (NlpFunction:=NlpFunction) var_int
       infinity dneg isSet var rowIndices columnIndices bounds w).2 in
  trace after = trace w ∧
  self after
  = set_m_lowerBounds (m_lowerBounds (self after))
      (set_m_upperBounds (m_upperBounds (self after)) (self w)) ∧
  ∀ key, key ≠ var →
    Variables_at var_int (m_lowerBounds (self after)) key
    = Variables_at var_int (m_lowerBounds (self w)) key ∧
    Variables_at var_int (m_upperBounds (self after)) key
    = Variables_at var_int (m_upperBounds (self w)) key.
Proof using var_int_inj.
  intros after. subst after. rewrite setVariableBounds_values. unfold bind.
  rewrite assign_lower_result. cbv zeta.
  destruct w as [t events]. destruct t. simpl.
  destruct (set_region _ _ _ _) as [lo'|]; simpl.
  - rewrite assign_upper_result. cbv zeta. simpl.
    destruct (set_region _ _ _ _) as [up'|]; simpl;
      (split_and!; [done..|]); intros key Hne;
      by rewrite ?Variables_at_set_ne, ?Variables_at_touch_ne by done.
  - split_and!; [done..|]. intros key Hne.
    by rewrite ?Variables_at_touch_ne by done.
Qed.

Lemma Variables_at_None_eqb {T} (vars : Variables Var T) key :
  Variables_at var_int vars key = None →
  Forall (λ kv, var_eqb var_int kv.1 key = false) vars.
Proof using Type.
  induction vars as [|[k v] rest IH]; [done|]. simpl.
  destruct (var_eqb var_int k key) eqn:E; [done|]. intros Hrest.
  constructor; [done|]. by apply IH.
Qed.

Lemma Variables_set_again {T} (vars : Variables Var T) key value :
  Variables_set var_int (Variables_set var_int vars key value) key value
  = Variables_set var_int vars key value.
Proof using var_int_inj.
  unfold Variables_set at 1. rewrite Variables_at_set by done.
  rewrite var_eqb_refl. unfold Variables_set.
  destruct (Variables_at var_int vars key) as [old|] eqn:Hat.
  - rewrite <- list_fmap_compose. apply list_fmap_ext. intros _ [k v] _. simpl.
    destruct (var_eqb var_int k key) eqn:E; simpl; by rewrite E.
  - csimpl. rewrite var_eqb_refl. f_equal.
    rewrite <- (list_fmap_id vars) at 2. apply Forall_fmap_ext.
    eapply Forall_impl; [by apply Variables_at_None_eqb|].
    intros [k v] Hk. simpl in *. by rewrite Hk.
Qed.

Lemma block_at_set_touch (vars : Variables Var (Matrix double)) var m :
  block_at var_int
    (Variables_set var_int (Variables_touch var_int vars var) var m) var = m.
Proof using var_int_inj.
  unfold block_at. by rewrite Variables_at_set, var_eqb_refl.
Qed.

Lemma touch_set_touch (vars : Variables Var (Matrix double)) var m :
  Variables_touch var_int
    (Variables_set var_int (Variables_touch var_int vars var) var m) var
  = Variables_set var_int (Variables_touch var_int vars var) var m.
Proof using var_int_inj.
  apply (Variables_touch_present var_int _ _ m).
  by rewrite Variables_at_set, var_eqb_refl.
Qed.

(** X7.  [setVariableBounds] is idempotent: once it has returned, calling
    it again with the same arguments returns again and changes nothing. *)
Theorem setVariableBounds_idempotent w w' var rowIndices columnIndices bounds :
  setVariableBounds (info:=info) (NlpFunction:=NlpFunction) var_int
    infinity dneg isSet var rowIndices columnIndices bounds w = (Some (), w') →
  setVariableBounds (info:=info) (NlpFunction:=NlpFunction) var_int
    infinity dneg isSet var rowIndices columnIndices bounds w' = (Some (), w').
Proof using var_int_inj.
  rewrite !setVariableBounds_values. unfold bind.
  rewrite !assign_lower_result. cbv zeta.
  destruct (set_region (block_at var_int (m_lowerBounds (self w)) var) _ _ _)
    as [lo'|] eqn:Hlo; [|done].
  rewrite assign_upper_result. cbv zeta. simpl.
  destruct (set_region (block_at var_int (m_upperBounds (self w)) var) _ _ _)
    as [up'|] eqn:Hup; [|done].
  intros [= <-]. simpl.
  rewrite block_at_set_touch, (set_region_again _ _ _ _ _ Hlo).
  rewrite assign_upper_result. cbv zeta. simpl.
  rewrite block_at_set_touch, (set_region_again _ _ _ _ _ Hup).
  by rewrite !touch_set_touch, !Variables_set_again.
Qed.

(** X8.  For a variable without a block in the lower-bound map and a
    selection that is not empty, [setVariableBounds] throws; the lookup
    that went before has left an empty block for the variable in the
    lower-bound map, and the upper-bound map has not been touched. *)
Theorem setVariableBounds_missing_variable w var rowIndices columnIndices bounds :
  Variables_at var_int (m_lowerBounds (self w)) var = None →
  rowIndices ≠ [] →
  columnIndices ≠ [] →
  setVariableBounds (info:=info) (NlpFunction:=NlpFunction) var_int
    infinity dneg isSet var rowIndices columnIndices bounds w
  = (None,
     mkWorld
       (set_m_lowerBounds ((var, Matrix_default) :: m_lowerBounds (self w)) (self w))
       (trace w)).
Proof using Type.
  intros Hat Hrows Hcolumns. rewrite setVariableBounds_values. unfold bind.
  rewrite assign_lower_result. cbv zeta.
  unfold block_at, Variables_touch. rewrite Hat. simpl.
  unfold set_region. rewrite decide_False; [done|]. simpl.
  intros [Hforall _]. destruct rowIndices as [|i rest]; [done|].
  apply Forall_cons in Hforall as [Hi _]. lia.
Qed.

(** X9.  [setVariableBounds] is not all-or-nothing: when the variable has a
    lower-bound block that the selection fits but no upper-bound block, it
    throws after the lower bounds of the selection have been written. *)
Theorem setVariableBounds_throws_half_way w var rowIndices columnIndices bounds
    (lo : Matrix double) :
  Variables_at var_int (m_lowerBounds (self w)) var = Some lo →
  wf_matrix lo →
  Forall (λ i, i < rows lo) rowIndices →
  Forall (λ j, j < columns lo) columnIndices →
  Variables_at var_int (m_upperBounds (self w)) var = None →
  rowIndices ≠ [] →
  columnIndices ≠ [] →
  ∃ w' lo',
    setVariableBounds (info:=info) (NlpFunction:=NlpFunction) var_int
      infinity dneg isSet var rowIndices columnIndices bounds w = (None, w') ∧
    Variables_at var_int (m_lowerBounds (self w')) var = Some lo' ∧
    (∀ i j, i ∈ rowIndices → j ∈ columnIndices →
       entry lo' i j
       = Some (if isSet bounds then lower bounds else dneg infinity)) ∧
    Variables_at var_int (m_upperBounds (self w')) var = Some Matrix_default.
Proof using var_int_inj.
  intros Hlo Hwf Hrows Hcolumns Hup Hrr Hcc.
  destruct (set_region_Some lo rowIndices columnIndices
              (if isSet bounds then lower bounds else dneg infinity)
              Hrows Hcolumns) as (lo' & Hset & _).
  rewrite setVariableBounds_values. unfold bind.
  rewrite (assign_lower_run var_int w _ _ _ _ lo lo') by done.
  rewrite assign_upper_result. cbv zeta. simpl.
  unfold block_at, Variables_touch. rewrite Hup. simpl.
  unfold set_region at 1. rewrite decide_False.
  - eexists _, lo'. split_and!; [done|..].
    + simpl. by rewrite Variables_at_set, var_eqb_refl.
    + intros i j Hi Hj. by apply (set_region_inside lo rowIndices columnIndices).
    + simpl. by rewrite var_eqb_refl.
  - simpl. intros [Hforall _]. destruct rowIndices as [|i rest]; [done|].
    apply Forall_cons in Hforall as [Hi _]. lia.
Qed.
End BoundsExtras.

(** ** solve: its outside calls, its failures and its result *)

Section SolveExtras.
Context {Var double sym Problem info NlpFunction : Type}.
Context (var_int : Var → Z) {var_int_inj : Inj (=) (=) var_int}.
Context (initial_time final_time : Var).
Context `{Arith double}.
Context (resample : Iterate Var double info → Matrix double
                    → option (Iterate Var double info)).
Context (createIterate : Problem → Solution Var double info).
Context (nlpsol : string → string → gmap string (Matrix sym) → Dict double
                  → option NlpFunction).
Context (nlpFunc_call : NlpFunction → gmap string (Matrix double)
                        → option (gmap string (Matrix double) * Dict double)).
Abbreviation YEvent :=
  (Event (Var:=Var) (double:=double) (sym:=sym) (info:=info)
         (NlpFunction:=NlpFunction)).
Abbreviation solve_from t guessOrig :=
  (solve var_int initial_time final_time resample createIterate nlpsol
     nlpFunc_call guessOrig (mkWorld t [])).
Implicit Types t : Transcription Var double sym Problem.
Implicit Types w : World (Transcription Var double sym Problem) YEvent.

(** X10.  A guess without an initial-time block or without a final-time
    block makes [solve] throw at once: nothing outside has been called and
    the object is as it was. *)
Theorem solve_needs_time_blocks guessOrig w :
  Variables_at var_int (variables guessOrig) initial_time = None ∨
  Variables_at var_int (variables guessOrig) final_time = None →
  solve var_int initial_time final_time resample createIterate nlpsol
    nlpFunc_call guessOrig w = (None, w).
Proof using Type.
  intros Hmissing. unfold solve, bind, try. simpl.
  destruct (Variables_at var_int (variables guessOrig) initial_time); [|done].
  destruct Hmissing as [?|Hfinal]; [done|]. by rewrite Hfinal.
Qed.

(** X11.  The outside calls of [solve] come in one order, each at most
    once: the resampling of the guess, the construction of the solver, its
    evaluation.  A call that returns has made all three. *)
Theorem solve_outside_calls_in_order t guessOrig :
  ∃ newTimes nlp,
    let resampled : YEvent := EvResample guessOrig newTimes in
    let built : YEvent :=
      EvNlpsol "nlp" (getOptimSolver (m_solver t)) nlp
        (solve_options (m_solver t)) in
    (trace (solve_from t guessOrig).2 = [] ∨
     trace (solve_from t guessOrig).2 = [resampled] ∨
     trace (solve_from t guessOrig).2 = [resampled; built] ∨
     ∃ nlpFunc args,
       trace (solve_from t guessOrig).2 = [resampled; built; EvCall nlpFunc args]) ∧
    (is_Some (solve_from t guessOrig).1 →
     ∃ nlpFunc args,
       trace (solve_from t guessOrig).2 = [resampled; built; EvCall nlpFunc args]).
Proof using Type.
  unfold solve, bind, try, const_call, member, outside, ret. simpl.
  repeat (case_match; simplify_eq/=).
  all: first
    [ by (eexists _, _; split; [do 3 right; by eexists _, _|by eexists _, _])
    | by (eexists _, _; split;
          [do 3 right; by eexists _, _|by intros [? ?]])
    | by (eexists _, _; split; [do 2 right; by left|by intros [? ?]])
    | by (eexists _, ∅; split; [right; by left|by intros [? ?]])
    | by (exists Matrix_default, ∅; split; [by left|by intros [? ?]]) ].
Qed.

Ltac in_trace :=
  repeat match goal with
         | Hev : _ ∈ [] |- _ => by apply elem_of_nil in Hev
         | Hev : _ ∈ _ :: _ |- _ => apply elem_of_cons in Hev as [Hev|Hev]
         end.

(** X12.  What the solver is built from and evaluated on.  The problem
    handed to [nlpsol] has three entries: the flattened variable store
    under "x", the objective under "f", the concatenated constraints under
    "g".  The evaluation gets five: the flattened blocks of the resampled
    guess (not of the guess as given) under "x0", the flattened bound maps
    under "lbx" and "ubx", the concatenated constraint bounds under "lbg"
    and "ubg". *)
Theorem solve_hands_over_problem t guessOrig :
  (∀ name solver nlp options,
     EvNlpsol name solver nlp options ∈ trace (solve_from t guessOrig).2 →
     name = "nlp" ∧ solver = getOptimSolver (m_solver t) ∧
     size nlp = 3 ∧
     nlp !! "x" = flatten var_int (m_vars t) ∧
     nlp !! "f" = Some (m_objective t) ∧
     nlp !! "g" = Some (veccat (m_constraints t))) ∧
  (∀ nlpFunc args,
     EvCall nlpFunc args ∈ trace (solve_from t guessOrig).2 →
     size args = 5 ∧
     (∃ newTimes guess,
        EvResample guessOrig newTimes ∈ trace (solve_from t guessOrig).2 ∧
        resample guessOrig newTimes = Some guess ∧
        args !! "x0" = flatten var_int (variables guess)) ∧
     args !! "lbx" = flatten var_int (m_lowerBounds t) ∧
     args !! "ubx" = flatten var_int (m_upperBounds t) ∧
     args !! "lbg" = Some (veccat (m_constraintsLowerBounds t)) ∧
     args !! "ubg" = Some (veccat (m_constraintsUpperBounds t))).
Proof using Type.
  clear var_int_inj. split.
  - intros name solver nlp options Hev. run_solve; in_trace; simplify_eq;
      (split_and!; [done..| | | |]; by vm_compute).
  - intros nlpFunc args Hev. run_solve; in_trace; simplify_eq;
      (split_and!; [by vm_compute| |by vm_compute..]);
      eexists _, _; (split_and!; [|done|by vm_compute]); set_solver.
Qed.

(** X14.  An outside call that ends in an exception ends [solve]: it is the
    last call the run makes, and the run returns no solution. *)
Theorem solve_stops_at_first_failure t guessOrig e :
  e ∈ trace (solve_from t guessOrig).2 →
  outside_failed resample nlpsol nlpFunc_call e →
  (solve_from t guessOrig).1 = None ∧
  last (trace (solve_from t guessOrig).2) = Some e.
Proof using Type.
  clear var_int_inj. intros Hev Hfailed.
  run_solve; in_trace; subst; simpl in Hfailed; by simplify_eq.
Qed.

Lemma solve_variables t guessOrig sol :
  (solve_from t guessOrig).1 = Some sol →
  ∃ xres expanded,
    expand var_int (m_vars t) xres = Some expanded ∧
    variables (iterate sol)
    = Variables_touch var_int (Variables_touch var_int expanded initial_time)
        final_time.
Proof using Type. clear var_int_inj. intros Hsol. run_solve. eauto. Qed.

(** X15.  When the variable store holds the two time variables, a solution
    that [solve] returns has exactly the keys of the store and, key by key,
    blocks of the shapes of the store. *)
Theorem solve_solution_has_store_shape t guessOrig sol :
  NoDup (keys (m_vars t)) →
  initial_time ∈ keys (m_vars t) →
  final_time ∈ keys (m_vars t) →
  (solve_from t guessOrig).1 = Some sol →
  keys (variables (iterate sol)) ≡ₚ keys (m_vars t) ∧
  same_shape var_int (m_vars t) (variables (iterate sol)).
Proof using var_int_inj.
  intros Hnd Hinitial Hfinal Hsol.
  apply solve_variables in Hsol as (xres & expanded & Hexpand & ->).
  pose proof (expand_Some_long var_int _ _ _ Hnd Hexpand) as Hlen.
  destruct (expand_spec var_int (m_vars t) xres Hnd Hlen)
    as (out & Hrun & Hkeys & Hat).
  rewrite Hexpand in Hrun. injection Hrun as <-.
  assert (∀ key, key ∈ keys (m_vars t) →
            Variables_touch var_int expanded key = expanded) as Htouch.
  { intros key Hkey. unfold Variables_touch. by rewrite Hat. }
  rewrite !Htouch by done. split; [done|]. intros key.
  destruct (Variables_at var_int (m_vars t) key) as [value|] eqn:Hvalue.
  - rewrite Hat by (apply (Variables_at_is_Some var_int); by eexists).
    unfold expanded_block, block_at. by rewrite Hvalue.
  - symmetry. apply fmap_None, (Variables_at_None var_int). rewrite Hkeys.
    by apply (Variables_at_None var_int).
Qed.

(** X16.  The objective that reaches the solver is the one set last:
    after [setObjective], whatever was set before, [solve] hands that
    objective to [nlpsol] under "f", and no other member of the object has
    changed. *)
Theorem setObjective_reaches_solver t previous objective guessOrig :
  let run :=
    bind (setObjective (info:=info) (NlpFunction:=NlpFunction) previous)
      (λ _, bind (setObjective objective)
              (λ _, solve var_int initial_time final_time resample createIterate
                      nlpsol nlpFunc_call guessOrig))
      (mkWorld t []) in
  self run.2 = set_m_objective objective t ∧
  ∀ name solver nlp options,
    EvNlpsol name solver nlp options ∈ trace run.2 →
    nlp !! "f" = Some objective.
Proof using Type.
  clear var_int_inj. intros run. subst run. split.
  - unfold bind at 1 2, setObjective, update. simpl. rewrite solve_self. done.
  - intros name solver nlp options Hev.
    unfold bind at 1 2, setObjective, update in Hev. simpl in Hev.
    run_solve; in_trace; simplify_eq; by vm_compute.
Qed.

(** X17.  The solver options reach the solver only in the company of
    plugin options: when the plugin options are empty, [solve] builds the
    solver with an empty option dictionary, whatever the solver options
    are. *)
Theorem solve_drops_solver_options t guessOrig options :
  getPluginOptions (m_solver t) = ∅ →
  options ∈ solver_options (trace (solve_from t guessOrig).2) →
  options = ∅.
Proof using Type.
  intros Hempty Hev%solve_passes_solve_options. subst options.
  by apply solve_options_no_plugin_options.
Qed.
End SolveExtras.

(** * The codec and the solution, end to end *)

(** ** The round trip through the flat vector *)

Section RoundTrip.
Context {Var : Type} (var_int : Var → Z) {var_int_inj : Inj (=) (=) var_int}.
Context {S A : Type}.
Implicit Types m_vars : Variables Var (Matrix S).
Implicit Types vals : Variables Var (Matrix A).

(** Whatever [expand] makes of the flattened [vals], it holds the keys of
    [vals] and under each of them the block [vals] holds. *)
Lemma expand_of_flatten_lookup m_vars vals v out :
  NoDup (keys m_vars) →
  NoDup (keys vals) →
  same_shape var_int m_vars vals →
  wf_blocks vals →
  flatten var_int vals = Some v →
  expand var_int m_vars v = Some out →
  keys out ≡ₚ keys vals ∧
  ∀ key, Variables_at var_int out key = Variables_at var_int vals key.
Proof using var_int_inj.
  intros Hnd Hnd' Hshape Hwf Hflat Hexpand.
  pose proof (same_shape_sorted_keys var_int m_vars vals Hnd Hnd' Hshape) as Hsorted.
  rewrite flatten_eq, Hsorted in Hflat by done. injection Hflat as <-.
  pose proof (expand_Some_long var_int _ _ _ Hnd Hexpand) as Hlen.
  destruct (expand_spec var_int m_vars _ Hnd Hlen) as (out' & Hrun & Hkeys & Hat).
  rewrite Hexpand in Hrun. injection Hrun as <-.
  assert (keys m_vars ≡ₚ keys vals) as Hsame_keys.
  { apply (keys_Permutation_of_lookup var_int); [done..|].
    intros key. by rewrite (same_shape_is_Some var_int m_vars vals). }
  split; [by rewrite Hkeys|]. intros key.
  destruct (Variables_at var_int vals key) as [block|] eqn:Hblock.
  - assert (key ∈ keys m_vars) as Hkey.
    { rewrite Hsame_keys. apply (Variables_at_is_Some var_int). by eexists. }
    rewrite Hat by done. f_equal.
    pose proof (Hshape key) as Hshapes. rewrite Hblock in Hshapes.
    destruct (Variables_at var_int m_vars key) as [value|] eqn:Hvalue; [|done].
    simpl in Hshapes. injection Hshapes as Hrows Hcolumns.
    unfold expanded_block, block_at, block_numel. rewrite Hvalue. simpl.
    destruct block as [r c es]. simpl in *. subst r c. f_equal.
    assert (key ∈ getSortedVarKeys var_int m_vars) as Hsortedkey
      by (by apply getSortedVarKeys_elem).
    pose proof (block_in_concat var_int vals _ key Hwf Hsortedkey) as Hpos.
    rewrite (offset_before_same_shape var_int m_vars vals) in Hpos by done.
    rewrite <- (same_shape_block_numel var_int m_vars vals) in Hpos by done.
    unfold block_numel, block_at in Hpos. rewrite Hblock, Hvalue in Hpos.
    done.
  - apply (Variables_at_None var_int). rewrite Hkeys, Hsame_keys.
    by apply (Variables_at_None var_int).
Qed.

(** C1.  Take a variable store [m_vars] and any assignment [vals] of
    numeric blocks to its variables (the same keys, block by block the
    same shape).  Flattening [vals] yields a vector [v]; expanding [v]
    against the store succeeds, and [expand] undoes [flatten] exactly:
    the expanded map has the keys of [vals] and holds under every key the
    very block that [vals] holds there, entries, rows and columns, so it
    has the shapes of the store; and flattening it gives back exactly
    [v]. *)
Theorem flatten_expand_roundtrip m_vars vals :
  NoDup (keys m_vars) →
  NoDup (keys vals) →
  same_shape var_int m_vars vals →
  wf_blocks vals →
  ∃ v out,
    flatten var_int vals = Some v ∧
    expand var_int m_vars v = Some out ∧
    flatten var_int out = Some v ∧
    keys out ≡ₚ keys vals ∧
    (∀ key, Variables_at var_int out key = Variables_at var_int vals key) ∧
    same_shape var_int m_vars out.
Proof using var_int_inj.
  intros Hnd Hnd' Hshape Hwf.
  destruct (flatten_expand_flatten var_int m_vars vals Hnd Hnd' Hshape Hwf)
    as (v & out & Hflat & Hexpand & Hback).
  destruct (expand_of_flatten_lookup m_vars vals v out Hnd Hnd' Hshape Hwf
              Hflat Hexpand) as [Hkeys Hblocks].
  exists v, out. split_and!; [done..|].
  intros key. by rewrite Hblocks.
Qed.
End RoundTrip.

(** ** The times of a solution *)

Section SolutionTimes.
Context {Var double sym Problem info NlpFunction : Type}.
Context (var_int : Var → Z) {var_int_inj : Inj (=) (=) var_int}.
Context (initial_time final_time : Var).
Context `{Arith double}.
Context (resample : Iterate Var double info → Matrix double
                    → option (Iterate Var double info)).
Context (createIterate : Problem → Solution Var double info).
Context (nlpsol : string → string → gmap string (Matrix sym) → Dict double
                  → option NlpFunction).
Context (nlpFunc_call : NlpFunction → gmap string (Matrix double)
                        → option (gmap string (Matrix double) * Dict double)).
Implicit Types t : Transcription Var double sym Problem.

(** [createTimes] on two 1-by-1 blocks cut out of a vector returns only
    when both cuts found an entry, and then with the times of the
    formula. *)
Lemma createTimes_of_cut_blocks t (xs ys : list double) times :
  (∀ a b : double, times_op a b = times_op b a) →
  wf_matrix (m_grid t) →
  createTimes t (mkMatrix 1 1 (take 1 xs)) (mkMatrix 1 1 (take 1 ys)) = Some times →
  ∃ initialTime finalTime,
    xs !! 0 = Some initialTime ∧ ys !! 0 = Some finalTime ∧
    take 1 xs = [initialTime] ∧ take 1 ys = [finalTime] ∧
    times = spec_actual_times (m_grid t) initialTime finalTime.
Proof using Type.
  intros Hcomm Hwf Htimes.
  destruct xs as [|a xs], ys as [|b ys]; simpl in Htimes.
  - unfold createTimes, binary in Htimes. simpl in Htimes. discriminate.
  - unfold createTimes, binary in Htimes. simpl in Htimes. discriminate.
  - unfold createTimes, binary in Htimes. simpl in Htimes. discriminate.
  - exists a, b. split_and!; [done..|].
    rewrite take_0 in Htimes.
    change (createTimes t (scalar a) (scalar b) = Some times) in Htimes.
    rewrite createTimes_scalars in Htimes by done. by injection Htimes.
Qed.

(** C3.  The time vector that [createTimes] makes of a normalised grid
    and two time values is grid x (finalTime - initialTime) + initialTime,
    entry by entry.  And when the variable store holds the initial and the
    final time as 1-by-1 blocks, a solution that [solve] returns carries
    the times of this formula for the solved time variables: the solver
    was evaluated, the variables of the solution are the entry "x" of its
    result expanded against the store, the two time blocks of the solution
    are the entries of that vector at the positions of the two time
    variables, and the times of the solution are the formula at these two
    values. *)
Theorem actual_times_formula t :
  (∀ a b : double, times_op a b = times_op b a) →
  wf_matrix (m_grid t) →
  (∀ initialTime finalTime,
     createTimes t (scalar initialTime) (scalar finalTime)
     = Some (spec_actual_times (m_grid t) initialTime finalTime)) ∧
  (∀ guessOrig events sol,
     NoDup (keys (m_vars t)) →
     shape <$> Variables_at var_int (m_vars t) initial_time = Some (1, 1) →
     shape <$> Variables_at var_int (m_vars t) final_time = Some (1, 1) →
     (solve var_int initial_time final_time resample createIterate nlpsol
        nlpFunc_call guessOrig (mkWorld t events)).1 = Some sol →
     ∃ nlpFunc args result xres initialTime finalTime,
       EvCall nlpFunc args
       ∈ trace (solve var_int initial_time final_time resample createIterate
                  nlpsol nlpFunc_call guessOrig (mkWorld t events)).2 ∧
       nlpFunc_call nlpFunc args = Some (result, stats sol) ∧
       result !! "x" = Some xres ∧
       expand var_int (m_vars t) xres = Some (variables (iterate sol)) ∧
       elems xres !! sorted_offset var_int (m_vars t) initial_time
       = Some initialTime ∧
       elems xres !! sorted_offset var_int (m_vars t) final_time
       = Some finalTime ∧
       Variables_at var_int (variables (iterate sol)) initial_time
       = Some (scalar initialTime) ∧
       Variables_at var_int (variables (iterate sol)) final_time
       = Some (scalar finalTime) ∧
       times (iterate sol) = spec_actual_times (m_grid t) initialTime finalTime).
Proof using var_int_inj.
  intros Hcomm Hwf. split; [intros; by apply createTimes_scalars|].
  intros guessOrig events sol Hnd Hinitial Hfinal Hsol.
  rewrite solve_trace in Hsol |- *. simpl in Hsol |- *.
  destruct (solve_returns_expanded_result var_int initial_time final_time
              resample createIterate nlpsol nlpFunc_call t guessOrig sol Hsol)
    as (nlpFunc & args & result & xres & expanded & _ & Hev & Hcall & Hx
        & Hexpand & Hvars).
  destruct (solve var_int initial_time final_time resample createIterate nlpsol
              nlpFunc_call guessOrig (mkWorld t [])) as [outcome w'] eqn:Hrun.
  simpl in Hsol, Hev. subst outcome.
  apply solve_times in Hrun as (a & b & Ha & Hb & Htimes). simpl in Htimes.
  pose proof (expand_Some_long var_int _ _ _ Hnd Hexpand) as Hlen.
  destruct (expand_spec var_int (m_vars t) xres Hnd Hlen)
    as (out & Hout & Hkeys & Hat).
  rewrite Hexpand in Hout. injection Hout as <-.
  destruct (Variables_at var_int (m_vars t) initial_time) as [b0|] eqn:Hb0;
    [|done].
  destruct (Variables_at var_int (m_vars t) final_time) as [bf|] eqn:Hbf;
    [|done].
  simpl in Hinitial, Hfinal.
  injection Hinitial as Hrows0 Hcolumns0. injection Hfinal as Hrowsf Hcolumnsf.
  assert (initial_time ∈ keys (m_vars t)) as Hkey0.
  { apply (Variables_at_is_Some var_int). by eexists. }
  assert (final_time ∈ keys (m_vars t)) as Hkeyf.
  { apply (Variables_at_is_Some var_int). by eexists. }
  assert (∀ key, key ∈ keys (m_vars t) →
            Variables_touch var_int expanded key = expanded) as Htouch.
  { intros key Hkey. unfold Variables_touch. by rewrite Hat. }
  rewrite !Htouch in Hvars by done. rewrite Hvars in Ha, Hb |- *.
  rewrite Hat in Ha, Hb by done. injection Ha as <-. injection Hb as <-.
  unfold expanded_block, block_at, block_numel, numel in Htimes.
  rewrite Hb0, Hbf in Htimes. simpl in Htimes.
  rewrite Hrows0, Hcolumns0, Hrowsf, Hcolumnsf in Htimes. simpl in Htimes.
  apply createTimes_of_cut_blocks in Htimes
    as (initialTime & finalTime & Hx0 & Hxf & Hcut0 & Hcutf & ->); [|done..].
  rewrite lookup_drop, Nat.add_0_r in Hx0, Hxf.
  exists nlpFunc, args, result, xres, initialTime, finalTime.
  split_and!; [|done..| | |done].
  - apply elem_of_app. by right.
  - rewrite Hat by done. unfold expanded_block, block_at, block_numel, numel.
    rewrite Hb0. simpl. rewrite Hrows0, Hcolumns0. simpl. by rewrite Hcut0.
  - rewrite Hat by done. unfold expanded_block, block_at, block_numel, numel.
    rewrite Hbf. simpl. rewrite Hrowsf, Hcolumnsf. simpl. by rewrite Hcutf.
Qed.
End SolutionTimes.

(** ** The instance, continued *)

Lemma expand_succeeds_iff_long_enough_witness :
  is_Some (expand ex_var_int (m_vars ex_transcription) ex_long_vector)
  ↔ total_numel (m_vars ex_transcription) ≤ numel ex_long_vector.
Proof.
  apply (expand_succeeds_iff_long_enough ex_var_int). by_decide.
Defined.

Lemma flatten_block_position_witness :
  ∃ v,
    flatten ex_var_int (variables ex_guess) = Some v ∧
    numel v = total_numel (m_vars ex_transcription) ∧
    take (numel (mkMatrix 1 2 [Fin 7; Fin 8]))
      (drop (sorted_offset ex_var_int (m_vars ex_transcription) ex_states) (elems v))
    = elems (mkMatrix 1 2 [Fin 7; Fin 8]).
Proof.
  apply (flatten_block_position ex_var_int (m_vars ex_transcription)
           (variables ex_guess) ex_states).
  - by_decide.
  - by_decide.
  - intros []; reflexivity.
  - repeat constructor.
  - reflexivity.
Defined.

Lemma expand_flatten_restores_blocks_witness :
  ∃ v out,
    flatten ex_var_int (variables ex_guess) = Some v ∧
    expand ex_var_int (m_vars ex_transcription) v = Some out ∧
    ∀ key, Variables_at ex_var_int out key
           = Variables_at ex_var_int (variables ex_guess) key.
Proof.
  apply (expand_flatten_restores_blocks ex_var_int).
  - by_decide.
  - by_decide.
  - intros []; reflexivity.
  - repeat constructor.
Defined.

Lemma flatten_expand_truncates_witness :
  ∃ out,
    expand ex_var_int (m_vars ex_transcription) ex_long_vector = Some out ∧
    flatten ex_var_int out
    = Some (mkMatrix (total_numel (m_vars ex_transcription)) 1
              (take (total_numel (m_vars ex_transcription)) (elems ex_long_vector))).
Proof.
  apply (flatten_expand_truncates ex_var_int).
  - by_decide.
  - vm_compute. lia.
Defined.

Lemma expand_depends_on_shapes_only_witness :
  expand ex_var_int (variables ex_guess) ex_long_vector
  = expand ex_var_int (m_vars ex_transcription) ex_long_vector.
Proof.
  apply (expand_depends_on_shapes_only ex_var_int).
  - by_decide.
  - by_decide.
  - intros []; reflexivity.
Defined.

Lemma getSortedVarKeys_strictly_increasing_witness :
  getSortedVarKeys ex_var_int (variables ex_guess) ≡ₚ keys (variables ex_guess) ∧
  NoDup (getSortedVarKeys ex_var_int (variables ex_guess)) ∧
  StronglySorted (λ a b, (ex_var_int a < ex_var_int b)%Z)
    (getSortedVarKeys ex_var_int (variables ex_guess)).
Proof.
  apply (getSortedVarKeys_strictly_increasing ex_var_int). by_decide.
Defined.

Lemma setVariableBounds_frame_witness :
  let after := (ex_setVariableBounds (mkBounds (Fin 1) (Fin 2)) ex_world).2 in
  trace after = trace ex_world ∧
  self after
  = set_m_lowerBounds (m_lowerBounds (self after))
      (set_m_upperBounds (m_upperBounds (self after)) (self ex_world)) ∧
  ∀ key, key ≠ ex_states →
    Variables_at ex_var_int (m_lowerBounds (self after)) key
    = Variables_at ex_var_int (m_lowerBounds (self ex_world)) key ∧
    Variables_at ex_var_int (m_upperBounds (self after)) key
    = Variables_at ex_var_int (m_upperBounds (self ex_world)) key.
Proof.
  apply (setVariableBounds_frame ex_var_int (Inf false) ex_neg ex_isSet ex_world).
Defined.

Lemma setVariableBounds_idempotent_witness :
  ex_setVariableBounds (mkBounds (Fin 1) (Fin 2))
    (ex_setVariableBounds (mkBounds (Fin 1) (Fin 2)) ex_world).2
  = (Some (), (ex_setVariableBounds (mkBounds (Fin 1) (Fin 2)) ex_world).2).
Proof.
  apply (setVariableBounds_idempotent ex_var_int (Inf false) ex_neg ex_isSet
           ex_world).
  reflexivity.
Defined.

Lemma setVariableBounds_missing_variable_witness :
  setVariableBounds (info:=unit) (NlpFunction:=unit) ex_var_int (Inf false)
    ex_neg ex_isSet ex_controls [0] [0] ex_unset ex_world
  = (None,
     mkWorld
       (set_m_lowerBounds
          ((ex_controls, Matrix_default) :: m_lowerBounds (self ex_world))
          (self ex_world))
       (trace ex_world)).
Proof.
  apply (setVariableBounds_missing_variable ex_var_int); [reflexivity|done|done].
Defined.

Lemma setVariableBounds_throws_half_way_witness :
  ∃ w' lo',
    ex_setVariableBounds ex_unset
      (mkWorld (set_m_upperBounds [] ex_transcription) []) = (None, w') ∧
    Variables_at ex_var_int (m_lowerBounds (self w')) ex_states = Some lo' ∧
    (∀ i j, i ∈ [0] → j ∈ [0] →
       entry lo' i j
       = Some (if ex_isSet ex_unset then lower ex_unset else ex_neg (Inf false))) ∧
    Variables_at ex_var_int (m_upperBounds (self w')) ex_states
    = Some Matrix_default.
Proof.
  apply (setVariableBounds_throws_half_way ex_var_int (Inf false) ex_neg ex_isSet
           (mkWorld (set_m_upperBounds [] ex_transcription) []) ex_states
           [0] [0] ex_unset (mkMatrix 1 2 [Fin 5; Fin 5])).
  - reflexivity.
  - reflexivity.
  - repeat constructor.
  - repeat constructor.
  - reflexivity.
  - done.
  - done.
Defined.

Lemma solve_needs_time_blocks_witness :
  ex_solve (mkIterate [(ex_states, mkMatrix 1 2 [Fin 7; Fin 8])] Matrix_default tt)
    ex_world
  = (None, ex_world).
Proof.
  apply (solve_needs_time_blocks ex_var_int). left. reflexivity.
Defined.

Lemma solve_stops_at_first_failure_witness :
  (solve ex_var_int ex_initial_time ex_final_time ex_resample ex_createIterate
     ex_nlpsol (λ _ _, None) ex_guess ex_world).1 = None ∧
  last (trace (solve ex_var_int ex_initial_time ex_final_time ex_resample
                 ex_createIterate ex_nlpsol (λ _ _, None) ex_guess ex_world).2)
  = Some (EvCall tt ex_args).
Proof.
  apply (solve_stops_at_first_failure ex_var_int ex_initial_time ex_final_time
           ex_resample ex_createIterate ex_nlpsol (λ _ _, None) ex_transcription
           ex_guess (EvCall tt ex_args)).
  - vm_compute. do 2 right. left.
  - reflexivity.
Defined.

Lemma solve_solution_has_store_shape_witness :
  keys (variables (iterate ex_solution)) ≡ₚ keys (m_vars ex_transcription) ∧
  same_shape ex_var_int (m_vars ex_transcription) (variables (iterate ex_solution)).
Proof.
  apply (solve_solution_has_store_shape ex_var_int ex_initial_time ex_final_time
           ex_resample ex_createIterate ex_nlpsol ex_nlpFunc_call
           ex_transcription ex_guess).
  - by_decide.
  - by_decide.
  - by_decide.
  - vm_compute. reflexivity.
Defined.

Lemma solve_drops_solver_options_witness :
  solve_options (m_solver ex_transcription_bare) = ∅.
Proof.
  apply (solve_drops_solver_options ex_var_int ex_initial_time ex_final_time
           ex_resample ex_createIterate ex_nlpsol ex_nlpFunc_call
           ex_transcription_bare ex_guess).
  - reflexivity.
  - vm_compute. left.
Defined.

Lemma flatten_expand_roundtrip_witness :
  ∃ v out,
    flatten ex_var_int (variables ex_guess) = Some v ∧
    expand ex_var_int (m_vars ex_transcription) v = Some out ∧
    flatten ex_var_int out = Some v ∧
    keys out ≡ₚ keys (variables ex_guess) ∧
    (∀ key, Variables_at ex_var_int out key
            = Variables_at ex_var_int (variables ex_guess) key) ∧
    same_shape ex_var_int (m_vars ex_transcription) out.
Proof.
  apply (flatten_expand_roundtrip ex_var_int).
  - by_decide.
  - by_decide.
  - intros []; reflexivity.
  - repeat constructor.
Defined.

Lemma actual_times_formula_witness :
  createTimes ex_transcription (scalar (Fin 2)) (scalar (Fin 4))
  = Some (spec_actual_times (m_grid ex_transcription) (Fin 2) (Fin 4)) ∧
  ∃ nlpFunc args result xres initialTime finalTime,
    EvCall nlpFunc args ∈ trace (ex_solve ex_guess ex_world).2 ∧
    ex_nlpFunc_call nlpFunc args = Some (result, stats ex_solution) ∧
    result !! "x" = Some xres ∧
    expand ex_var_int (m_vars ex_transcription) xres
    = Some (variables (iterate ex_solution)) ∧
    elems xres !! sorted_offset ex_var_int (m_vars ex_transcription) ex_initial_time
    = Some initialTime ∧
    elems xres !! sorted_offset ex_var_int (m_vars ex_transcription) ex_final_time
    = Some finalTime ∧
    Variables_at ex_var_int (variables (iterate ex_solution)) ex_initial_time
    = Some (scalar initialTime) ∧
    Variables_at ex_var_int (variables (iterate ex_solution)) ex_final_time
    = Some (scalar finalTime) ∧
    times (iterate ex_solution)
    = spec_actual_times (m_grid ex_transcription) initialTime finalTime.
Proof.
  destruct (actual_times_formula ex_var_int ex_initial_time ex_final_time
              ex_resample ex_createIterate ex_nlpsol ex_nlpFunc_call
              ex_transcription ex_times_comm) as [Hformula Hsolve].
  { reflexivity. }
  split; [apply Hformula|].
  apply (Hsolve ex_guess [] ex_solution).
  - by_decide.
  - reflexivity.
  - reflexivity.
  - vm_compute. reflexivity.
Defined.

(** C6 as the specification has it, exactly one evaluation of the solver
    for every guess, fails: a guess without its time blocks makes [solve]
    throw before it gets to the solver, which is then not evaluated at
    all. *)
Lemma solve_without_time_blocks_calls_no_solver :
  let guessOrig :=
    mkIterate [(ex_states, mkMatrix 1 2 [Fin 7; Fin 8])] (mkMatrix 1 2 [Fin 2; Fin 4]) tt in
  (ex_solve guessOrig ex_world).1 = None ∧
  solver_calls (trace (ex_solve guessOrig ex_world).2) = [] ∧
  length (solver_calls (trace (ex_solve guessOrig ex_world).2)) ≠ 1.
Proof. vm_compute. split_and!; [reflexivity..|discriminate]. Qed.

(** C7.  The object [ex_transcription_bare] has a solver without plugin
    options, with the optimiser "ipopt" and the solver options
    [{"max_iter": 100}].  [solve] returns a solution for it, and the one
    option dictionary it hands to [nlpsol] is empty: of the configuration
    that was supplied nothing reaches the solver. *)
Theorem solve_hands_nlpsol_no_options :
  getPluginOptions (m_solver ex_transcription_bare) = ∅ ∧
  getOptimSolver (m_solver ex_transcription_bare) = "ipopt" ∧
  getSolverOptions (m_solver ex_transcription_bare)
  = {[ "max_iter" := GT_int 100 ]} ∧
  (ex_solve ex_guess (mkWorld ex_transcription_bare [])).1 = Some ex_solution ∧
  solver_options (trace (ex_solve ex_guess (mkWorld ex_transcription_bare [])).2)
  = [∅].
Proof. vm_compute. split_and!; reflexivity. Qed.
